(** * Changeset-spec assembly of src-cli: diff grouping, group validation,
      author and publication policy.

    Shallow embedding of [internal/batches/executor/changeset_specs.go]:
    [createChangesetSpecs], [groupsForRepository], [validateGroups] and
    [groupFileDiffs].  Go maps are stdpp [gmap]s, slices are lists, a Go
    [(value, error)] pair is an [outcome], and [panic] is an outcome of its
    own.  The libraries the file calls (the template renderer, go-diff, the
    overridable publication policy, the ref helpers) are collaborators taken
    as parameters. *)

From stdpp Require Import gmap strings list fin_maps.
From Stdlib Require Import String Ascii.

Local Open Scope string_scope.
Local Open Scope list_scope.

(** ** Strings *)

(** [strings.Contains(s, substr)]: unanchored containment on bytes.  The
    empty string is contained in every string. *)
Fixpoint Contains (s substr : string) : bool :=
  String.prefix substr s ||
  match s with
  | EmptyString => false
  | String _ s' => Contains s' substr
  end.

(** The double-quote character, for messages that quote a word. *)
Definition dquote : string := String (ascii_of_nat 34) EmptyString.

(** ** Errors and outcomes *)

(** Go [error] values, kept as the tree of constructors that built them. *)
Inductive error : Type :=
| errors_New (msg : string)
| fmt_Errorf (format : string) (args : list string)
| errors_Wrap (cause : error) (msg : string)
| NewValidationError (cause : error).

(** What a call of this package can do: return a value, return an error, or
    panic. *)
Inductive outcome (A : Type) : Type :=
| Ok (a : A)
| Err (e : error)
| Panic (msg : string).
Arguments Ok {A} a.
Arguments Err {A} e.
Arguments Panic {A} msg.

(** Sequencing stops at the first error or panic; written [x ← c; k]. *)
Global Instance outcome_ret : MRet outcome := λ A a, Ok a.
Global Instance outcome_bind : MBind outcome := λ A B k c,
  match c with
  | Ok a => k a
  | Err e => Err e
  | Panic msg => Panic msg
  end.

(** A collaborator returns [(value, error)] and does not panic. *)
Definition call {A : Type} (r : error + A) : outcome A :=
  match r with
  | inl e => Err e
  | inr a => Ok a
  end.

(** ** Data model *)

(** [batcheslib.Group]. *)
Module Group.
Record t : Type := {
  Directory : string;
  Branch : string;
  Repository : string
}.
End Group.

(** [batcheslib.TransformChanges]. *)
Module TransformChanges.
Record t : Type := { Group : list Group.t }.
End TransformChanges.

(** [diff.FileDiff] of go-diff: the two names the partitioner reads, and the
    rest of the file's diff carried along untouched. *)
Module FileDiff.
Record t : Type := {
  OrigName : string;
  NewName : string;
  Extended : list string;
  Hunks : list string
}.
End FileDiff.

(** ** Group selection and validation *)

(** [groupsForRepository]: the loop appends, in declaration order, every
    group whose repository filter is empty or equal to [repoName]. *)
Definition groupsForRepository (repoName : string)
    (transform : option TransformChanges.t) : list Group.t :=
  match transform with
  | None => []
  | Some tc =>
      fold_left
        (fun groups g =>
           if negb (String.eqb (Group.Repository g) "")
           then if String.eqb (Group.Repository g) repoName
                then groups ++ [g]
                else groups
           else groups ++ [g])
        (TransformChanges.Group tc) []
  end.

Definition errDuplicateBranch (repoName branch : string) : error :=
  NewValidationError
    (fmt_Errorf
       "transformChanges would lead to multiple changesets in repository %s to have the same branch %q"
       [repoName; branch]).

Definition errDefaultBranch (repoName defaultBranch : string) : error :=
  NewValidationError
    (fmt_Errorf
       "transformChanges group branch for repository %s is the same as branch %q in changesetTemplate"
       [repoName; defaultBranch]).

(** The loop of [validateGroups], with the set of branches seen so far. *)
Fixpoint validateGroups_from (repoName defaultBranch : string)
    (uniqueBranches : gset string) (groups : list Group.t) : option error :=
  match groups with
  | [] => None
  | g :: rest =>
      if decide (Group.Branch g ∈ uniqueBranches)
      then Some (errDuplicateBranch repoName (Group.Branch g))
      else
        let uniqueBranches := {[Group.Branch g]} ∪ uniqueBranches in
        if String.eqb (Group.Branch g) defaultBranch
        then Some (errDefaultBranch repoName defaultBranch)
        else validateGroups_from repoName defaultBranch uniqueBranches rest
  end.

(** [validateGroups]: [None] is Go's [nil] error. *)
Definition validateGroups (repoName defaultBranch : string)
    (groups : list Group.t) : option error :=
  validateGroups_from repoName defaultBranch ∅ groups.

(** ** Tasks, results and changeset specs *)

(** The data this package only passes on to its collaborators. *)
Class Payloads : Type := {
  template_BatchChangeAttributes : Type;
  git_Changes : Type;
  OutputBag : Type;
  RepoFileMatches : Type;
  util_TemplatingRepo : Type;
  overridable_BoolOrString : Type
}.

(** A non-nil [interface{}] holding a publication value. *)
Inductive any : Type :=
| any_bool (b : bool)
| any_string (s : string).

Global Instance any_eq_dec : EqDecision any.
Proof. solve_decision. Defined.

(** [graphql.Repository]. *)
Module Repository.
Record t `{Payloads} : Type := {
  ID : string;
  Name : string;
  FileMatches : RepoFileMatches
}.
End Repository.

(** [batcheslib.GitCommitAuthor]. *)
Module GitCommitAuthor.
Record t : Type := { Name : string; Email : string }.
End GitCommitAuthor.

(** [batcheslib.ExpandedGitCommitDescription]; a nil [Author] is [None]. *)
Module ExpandedGitCommitDescription.
Record t : Type := {
  Message : string;
  Author : option GitCommitAuthor.t
}.
End ExpandedGitCommitDescription.

(** [batcheslib.ChangesetTemplate]; a nil [Published] is [None]. *)
Module ChangesetTemplate.
Record t `{Payloads} : Type := {
  Title : string;
  Body : string;
  Branch : string;
  Commit : ExpandedGitCommitDescription.t;
  Published : option overridable_BoolOrString
}.
End ChangesetTemplate.

(** [Task]; a nil [TransformChanges] is [None].  [Template] and
    [BatchChangeAttributes], pointers that [createChangesetSpecs]
    dereferences at once, are taken to be set. *)
Module Task.
Record t `{Payloads} : Type := {
  Repository : Repository.t;
  Template : ChangesetTemplate.t;
  TransformChanges : option TransformChanges.t;
  BatchChangeAttributes : template_BatchChangeAttributes
}.
End Task.

(** [executionResult]. *)
Module executionResult.
Record t `{Payloads} : Type := {
  Diff : string;
  ChangedFiles : git_Changes;
  Outputs : OutputBag;
  Path : string
}.
End executionResult.

(** [batches.FeatureFlags], the two flags read here. *)
Module FeatureFlags.
Record t : Type := {
  AllowOptionalPublished : bool;
  IncludeAutoAuthorDetails : bool
}.
End FeatureFlags.

(** [template.StepsContext]. *)
Module StepsContext.
Record t `{Payloads} : Type := { Changes : git_Changes; Path : string }.
End StepsContext.

(** [template.ChangesetTemplateContext]. *)
Module ChangesetTemplateContext.
Record t `{Payloads} : Type := {
  BatchChangeAttributes : template_BatchChangeAttributes;
  Steps : StepsContext.t;
  Outputs : OutputBag;
  Repository : util_TemplatingRepo
}.
End ChangesetTemplateContext.

(** [batcheslib.GitCommitDescription]. *)
Module GitCommitDescription.
Record t : Type := {
  Message : string;
  AuthorName : string;
  AuthorEmail : string;
  Diff : string
}.
End GitCommitDescription.

(** [batcheslib.PublishedValue]; [Val = None] is the nil interface. *)
Module PublishedValue.
Record t : Type := { Val : option any }.
End PublishedValue.

(** [batcheslib.ChangesetSpec]. *)
Module ChangesetSpec.
Record t : Type := {
  BaseRepository : string;
  BaseRef : string;
  BaseRev : string;
  HeadRepository : string;
  HeadRef : string;
  Title : string;
  Body : string;
  Commits : list GitCommitDescription.t;
  Published : PublishedValue.t
}.
End ChangesetSpec.

(** The functions of other packages called here.  [mapRange] is the order
    in which a [range] loop visits a map: Go leaves it unspecified, so it is
    any enumeration of the map's entries. *)
Class Collaborators `{Payloads} : Type := {
  NewTemplatingRepo : string → RepoFileMatches → util_TemplatingRepo;
  RenderChangesetTemplateField :
    string → string → ChangesetTemplateContext.t → error + string;
  ValueWithSuffix : overridable_BoolOrString → string → string → option any;
  EnsureRefPrefix : string → string;
  BaseRef : Repository.t → string;
  Rev : Repository.t → string;
  ParseMultiFileDiff : string → error + list FileDiff.t;
  PrintMultiFileDiff : list FileDiff.t → error + string;
  mapRange : ∀ {V : Type}, gmap string V → list (string * V);
  mapRange_perm : ∀ (V : Type) (m : gmap string V),
    mapRange m ≡ₚ map_to_list m
}.

(** ** The diff partitioner and the assembler *)

Section Executor.
Context `{Collaborators}.

(** The path a file diff is matched by: [NewName], or [OrigName] when the
    file was deleted. *)
Definition effectiveName (f : FileDiff.t) : string :=
  if String.eqb (FileDiff.NewName f) "/dev/null"
  then FileDiff.OrigName f
  else FileDiff.NewName f.

(** The housekeeping loop over [groups]: [branchesByDirectory] and [dirs].
    [dirs] starts empty, since the map whose length sizes it is still
    empty at that point. *)
Definition lookupTables (groups : list Group.t)
    : gmap string string * list string :=
  fold_left
    (fun tables g =>
       (<[Group.Directory g := Group.Branch g]> (fst tables),
        snd tables ++ [Group.Directory g]))
    groups (∅, []).

(** The inner loop over [dirs]: the last directory contained in [name],
    or the zero value [""]. *)
Definition lastMatchingDir (dirs : list string) (name : string) : string :=
  fold_left
    (fun matchingDir d => if Contains name d then d else matchingDir)
    dirs "".

(** [append(byBranch[branch], f)] stored back under [branch]; a missing
    key reads as the nil slice. *)
Definition appendTo (byBranch : gmap string (list FileDiff.t))
    (branch : string) (f : FileDiff.t) : gmap string (list FileDiff.t) :=
  <[branch := default [] (byBranch !! branch) ++ [f]]> byBranch.

(** The body of the loop over the file diffs. *)
Definition assignFileDiff (branchesByDirectory : gmap string string)
    (dirs : list string) (defaultBranch : string)
    (byBranch : gmap string (list FileDiff.t)) (f : FileDiff.t)
    : outcome (gmap string (list FileDiff.t)) :=
  let name := effectiveName f in
  let matchingDir := lastMatchingDir dirs name in
  if String.eqb matchingDir ""
  then Ok (appendTo byBranch defaultBranch f)
  else
    match branchesByDirectory !! matchingDir with
    | None => Panic ("this should not happen: " +:+ matchingDir)
    | Some branch => Ok (appendTo byBranch branch f)
    end.

Fixpoint assignFileDiffs (branchesByDirectory : gmap string string)
    (dirs : list string) (defaultBranch : string)
    (byBranch : gmap string (list FileDiff.t)) (fileDiffs : list FileDiff.t)
    : outcome (gmap string (list FileDiff.t)) :=
  match fileDiffs with
  | [] => Ok byBranch
  | f :: rest =>
      byBranch ← assignFileDiff branchesByDirectory dirs defaultBranch
                   byBranch f;
      assignFileDiffs branchesByDirectory dirs defaultBranch byBranch rest
  end.

(** Everything of [groupFileDiffs] between parsing and printing. *)
Definition fileDiffsByBranch (fileDiffs : list FileDiff.t)
    (defaultBranch : string) (groups : list Group.t)
    : outcome (gmap string (list FileDiff.t)) :=
  let tables := lookupTables groups in
  assignFileDiffs (fst tables) (snd tables) defaultBranch
    (<[defaultBranch := []]> ∅) fileDiffs.

(** The printing loop, over the entries of [byBranch] as visited. *)
Fixpoint printBranches (entries : list (string * list FileDiff.t))
    (finalDiffsByBranch : gmap string string) : outcome (gmap string string) :=
  match entries with
  | [] => Ok finalDiffsByBranch
  | (branch, diffs) :: rest =>
      match PrintMultiFileDiff diffs with
      | inl err => Err (errors_Wrap err "printing multi file diff failed")
      | inr printed =>
          printBranches rest (<[branch := printed]> finalDiffsByBranch)
      end
  end.

Definition groupFileDiffs (completeDiff defaultBranch : string)
    (groups : list Group.t) : outcome (gmap string string) :=
  fileDiffs ← call (ParseMultiFileDiff completeDiff);
  byBranch ← fileDiffsByBranch fileDiffs defaultBranch groups;
  printBranches (mapRange byBranch) ∅.

Definition errOptionalPublishedUnsupported : error :=
  NewValidationError
    (errors_New
       ("This Sourcegraph version requires the " +:+ dquote +:+ "published"
        +:+ dquote +:+ " field to be specified in the batch spec; upgrade to version 3.30.0 or later to be able to omit the published field and control publication from the UI.")).

(** The publication value computed at the head of [newSpec]. *)
Definition publishedFor (task : Task.t) (features : FeatureFlags.t)
    (branch : string) : outcome (option any) :=
  match ChangesetTemplate.Published (Task.Template task) with
  | Some policy =>
      let published :=
        ValueWithSuffix policy (Repository.Name (Task.Repository task)) branch in
      if bool_decide (published = None)
         && negb (FeatureFlags.AllowOptionalPublished features)
      then Ok (Some (any_bool false))
      else Ok published
  | None =>
      if negb (FeatureFlags.AllowOptionalPublished features)
      then Err errOptionalPublishedUnsupported
      else Ok None
  end.

(** The closure [newSpec], with the variables it captures as arguments. *)
Definition newSpec (task : Task.t) (features : FeatureFlags.t)
    (title body message authorName authorEmail : string)
    (branch diff : string) : outcome ChangesetSpec.t :=
  published ← publishedFor task features branch;
  Ok {| ChangesetSpec.BaseRepository := Repository.ID (Task.Repository task);
        ChangesetSpec.BaseRef := BaseRef (Task.Repository task);
        ChangesetSpec.BaseRev := Rev (Task.Repository task);
        ChangesetSpec.HeadRepository := Repository.ID (Task.Repository task);
        ChangesetSpec.HeadRef := EnsureRefPrefix branch;
        ChangesetSpec.Title := title;
        ChangesetSpec.Body := body;
        ChangesetSpec.Commits :=
          [ {| GitCommitDescription.Message := message;
               GitCommitDescription.AuthorName := authorName;
               GitCommitDescription.AuthorEmail := authorEmail;
               GitCommitDescription.Diff := diff |} ];
        ChangesetSpec.Published := {| PublishedValue.Val := published |} |}.

(** The loop over [diffsByBranch], appending one spec per entry. *)
Fixpoint newSpecs (mk : string → string → outcome ChangesetSpec.t)
    (entries : list (string * string)) (specs : list ChangesetSpec.t)
    : outcome (list ChangesetSpec.t) :=
  match entries with
  | [] => Ok specs
  | (branch, diff) :: rest =>
      spec ← mk branch diff;
      newSpecs mk rest (specs ++ [spec])
  end.

Definition templateContext (task : Task.t) (result : executionResult.t)
    : ChangesetTemplateContext.t :=
  {| ChangesetTemplateContext.BatchChangeAttributes :=
       Task.BatchChangeAttributes task;
     ChangesetTemplateContext.Steps :=
       {| StepsContext.Changes := executionResult.ChangedFiles result;
          StepsContext.Path := executionResult.Path result |};
     ChangesetTemplateContext.Outputs := executionResult.Outputs result;
     ChangesetTemplateContext.Repository :=
       NewTemplatingRepo (Repository.Name (Task.Repository task))
         (Repository.FileMatches (Task.Repository task)) |}.

(** Author resolution: the defaults, nothing, or the rendered override. *)
Definition resolveAuthor (task : Task.t) (features : FeatureFlags.t)
    (tmplCtx : ChangesetTemplateContext.t) : outcome (string * string) :=
  match ExpandedGitCommitDescription.Author
          (ChangesetTemplate.Commit (Task.Template task)) with
  | None =>
      if FeatureFlags.IncludeAutoAuthorDetails features
      then Ok ("Sourcegraph", "batch-changes@sourcegraph.com")
      else Ok ("", "")
  | Some author =>
      authorName ← call (RenderChangesetTemplateField "authorName"
                           (GitCommitAuthor.Name author) tmplCtx);
      authorEmail ← call (RenderChangesetTemplateField "authorEmail"
                            (GitCommitAuthor.Email author) tmplCtx);
      Ok (authorName, authorEmail)
  end.

Definition createChangesetSpecs (task : Task.t) (result : executionResult.t)
    (features : FeatureFlags.t) : outcome (list ChangesetSpec.t) :=
  let tmplCtx := templateContext task result in
  let template := Task.Template task in
  let repoName := Repository.Name (Task.Repository task) in
  author ← resolveAuthor task features tmplCtx;
  title ← call (RenderChangesetTemplateField "title"
                  (ChangesetTemplate.Title template) tmplCtx);
  body ← call (RenderChangesetTemplateField "body"
                 (ChangesetTemplate.Body template) tmplCtx);
  message ← call (RenderChangesetTemplateField "message"
                    (ExpandedGitCommitDescription.Message
                       (ChangesetTemplate.Commit template)) tmplCtx);
  defaultBranch ← call (RenderChangesetTemplateField "branch"
                          (ChangesetTemplate.Branch template) tmplCtx);
  let mk := newSpec task features title body message (fst author) (snd author) in
  let groups := groupsForRepository repoName (Task.TransformChanges task) in
  if negb (Nat.eqb (List.length groups) 0)
  then
    match validateGroups repoName (ChangesetTemplate.Branch template) groups with
    | Some err => Err err
    | None =>
        match groupFileDiffs (executionResult.Diff result) defaultBranch groups with
        | Err err => Err (errors_Wrap err "grouping diffs failed")
        | Panic msg => Panic msg
        | Ok diffsByBranch => newSpecs mk (mapRange diffsByBranch) []
        end
    end
  else
    spec ← mk defaultBranch (executionResult.Diff result);
    Ok [spec].

End Executor.

(** ** A concrete instance, used to run the definitions on examples *)

Module Sample.

#[local] Instance payloads : Payloads :=
  {| template_BatchChangeAttributes := string;
     git_Changes := list string;
     OutputBag := list (string * string);
     RepoFileMatches := list string;
     util_TemplatingRepo := string * list string;
     overridable_BoolOrString := option any |}.

(** A template without actions renders to itself; an opened action is
    reported as a render failure. *)
Definition render (field tmpl : string)
    (ctx : @ChangesetTemplateContext.t payloads) : error + string :=
  if Contains tmpl "{{"
  then inl (errors_New ("template: " +:+ field +:+ ": unexpected action"))
  else inr tmpl.

Definition ensureRefPrefix (ref : string) : string :=
  if String.prefix "refs/heads/" ref then ref else "refs/heads/" +:+ ref.

Definition backend_a : FileDiff.t :=
  {| FileDiff.OrigName := "a/backend/a.go";
     FileDiff.NewName := "b/backend/a.go";
     FileDiff.Extended := [];
     FileDiff.Hunks := ["@@ -1 +1 @@ -old +new"] |}.

Definition frontend_b : FileDiff.t :=
  {| FileDiff.OrigName := "a/frontend/b.ts";
     FileDiff.NewName := "b/frontend/b.ts";
     FileDiff.Extended := [];
     FileDiff.Hunks := ["@@ -2 +2 @@ -x +y"] |}.

Definition deleted_c : FileDiff.t :=
  {| FileDiff.OrigName := "a/backend/c.go";
     FileDiff.NewName := "/dev/null";
     FileDiff.Extended := [];
     FileDiff.Hunks := ["@@ -1 +0,0 @@ -gone"] |}.

(** The line feed, for the text of a diff. *)
Definition lf : string := String (ascii_of_nat 10) EmptyString.

(** A diff whose hunk header is cut short. *)
Definition malformed : string :=
  "--- a/backend/a.go" +:+ lf +:+ "+++ b/backend/a.go" +:+ lf
  +:+ "@@ -1 +1" +:+ lf.

(** A parser by table: two diffs known by a name, and the malformed diff,
    which it rejects for its hunk header.  A text without a file header
    is no error to the parser: every other text is taken to hold no file
    diff. *)
Definition parse (text : string) : error + list FileDiff.t :=
  if String.eqb text "two files" then inr [backend_a; frontend_b]
  else if String.eqb text "three files" then inr [backend_a; frontend_b; deleted_c]
  else if String.eqb text malformed
  then inl (errors_New "line 3, char 44: bad hunk header: @@ -1 +1")
  else inr [].

Definition printFile (f : FileDiff.t) : string :=
  "--- " +:+ FileDiff.OrigName f +:+ " +++ " +:+ FileDiff.NewName f +:+ " "
  +:+ String.concat " " (FileDiff.Hunks f) +:+ ";".

(** The printer writes to memory and reports no error. *)
Definition print (fileDiffs : list FileDiff.t) : error + string :=
  inr (String.concat "" (map printFile fileDiffs)).

Definition newTemplatingRepo (name : string) (matches : list string)
    : string * list string :=
  (name, matches).

Definition valueWithSuffix (policy : option any) (name suffix : string)
    : option any :=
  policy.

Definition collaborators : @Collaborators payloads :=
  @Build_Collaborators payloads
    newTemplatingRepo render valueWithSuffix ensureRefPrefix
    (fun _ => "refs/heads/main") (fun _ => "d34db33f")
    parse print
    (fun V m => map_to_list m)
    (fun V m => reflexivity (map_to_list m)).

(** The same collaborators over a printer that fails, to run the path of
    a printing failure, which the printer above never takes. *)
Definition unprintable : @Collaborators payloads :=
  @Build_Collaborators payloads
    newTemplatingRepo render valueWithSuffix ensureRefPrefix
    (fun _ => "refs/heads/main") (fun _ => "d34db33f")
    parse (fun _ => inl (errors_New "short write"))
    (fun V m => map_to_list m)
    (fun V m => reflexivity (map_to_list m)).

(** The message of an error of this instance; formats are left as they
    are. *)
Fixpoint message (e : error) : string :=
  match e with
  | errors_New msg => msg
  | fmt_Errorf format _ => format
  | errors_Wrap cause msg => msg +:+ ": " +:+ message cause
  | NewValidationError cause => message cause
  end.

Definition repo : @Repository.t payloads :=
  {| Repository.ID := "UmVwbzox";
     Repository.Name := "github.com/sourcegraph/src-cli";
     Repository.FileMatches := [] |}.

Definition task (author : option GitCommitAuthor.t)
    (published : option (option any))
    (transform : option TransformChanges.t) : @Task.t payloads :=
  {| Task.Repository := repo;
     Task.Template :=
       {| ChangesetTemplate.Title := "Update";
          ChangesetTemplate.Body := "Body";
          ChangesetTemplate.Branch := "main";
          ChangesetTemplate.Commit :=
            {| ExpandedGitCommitDescription.Message := "msg";
               ExpandedGitCommitDescription.Author := author |};
          ChangesetTemplate.Published := published |};
     Task.TransformChanges := transform;
     Task.BatchChangeAttributes := "my-batch-change" |}.

Definition result (diff : string) : @executionResult.t payloads :=
  {| executionResult.Diff := diff;
     executionResult.ChangedFiles := [];
     executionResult.Outputs := [];
     executionResult.Path := "" |}.

Definition flags (optionalPublished autoAuthor : bool) : FeatureFlags.t :=
  {| FeatureFlags.AllowOptionalPublished := optionalPublished;
     FeatureFlags.IncludeAutoAuthorDetails := autoAuthor |}.

Definition group (directory branch : string) : Group.t :=
  {| Group.Directory := directory;
     Group.Branch := branch;
     Group.Repository := "" |}.

End Sample.


(** ** Specification-level notions, to state the claims against *)

(** The applicable groups as the spec words them, to compare
    [groupsForRepository] with: the global groups and those whose
    repository filter names the repository. *)
Definition applicableGroups (repoName : string) (groups : list Group.t)
    : list Group.t :=
  List.filter
    (fun g => String.eqb (Group.Repository g) ""
              || String.eqb (Group.Repository g) repoName)
    groups.

(** The applicable group list of a repository: the applicable groups of
    the grouping configuration, and empty when none is declared. *)
Definition applicableGroupList (repoName : string)
    (transform : option TransformChanges.t) : list Group.t :=
  match transform with
  | None => []
  | Some tc => applicableGroups repoName (TransformChanges.Group tc)
  end.

(** The last group, in declaration order, whose directory is contained in
    [name]. *)
Definition lastMatchingGroup (groups : list Group.t) (name : string)
    : option Group.t :=
  last (List.filter (fun g => Contains name (Group.Directory g)) groups).

(** The branch a file diff belongs to: that of the last matching group when
    its directory is not empty, the default branch otherwise. *)
Definition targetBranch (groups : list Group.t) (defaultBranch : string)
    (f : FileDiff.t) : string :=
  match lastMatchingGroup groups (effectiveName f) with
  | Some g =>
      if String.eqb (Group.Directory g) "" then defaultBranch
      else Group.Branch g
  | None => defaultBranch
  end.

(** The file diffs of [fileDiffs] that belong to [branch], in input order. *)
Definition assigned (groups : list Group.t) (defaultBranch branch : string)
    (fileDiffs : list FileDiff.t) : list FileDiff.t :=
  List.filter
    (fun f => String.eqb (targetBranch groups defaultBranch f) branch)
    fileDiffs.

(** The publication value the spec prescribes for a branch, when one is
    produced at all. *)
Definition resolvedPublication `{Collaborators} (task : Task.t)
    (features : FeatureFlags.t) (branch : string) : option any :=
  match ChangesetTemplate.Published (Task.Template task) with
  | Some policy =>
      match ValueWithSuffix policy (Repository.Name (Task.Repository task))
              branch with
      | Some v => Some v
      | None =>
          if FeatureFlags.AllowOptionalPublished features then None
          else Some (any_bool false)
      end
  | None => None
  end.


(** The two stages of [createChangesetSpecs], told apart for the proofs:
    everything rendered before a spec is built, and the assembly that
    follows. *)
Module Rendered.
Record t : Type := {
  authorName : string;
  authorEmail : string;
  title : string;
  body : string;
  message : string;
  defaultBranch : string
}.
End Rendered.

Definition renderedFields `{Collaborators} (task : Task.t)
    (result : executionResult.t) (features : FeatureFlags.t)
    : outcome Rendered.t :=
  let tmplCtx := templateContext task result in
  let template := Task.Template task in
  author ← resolveAuthor task features tmplCtx;
  title ← call (RenderChangesetTemplateField "title"
                  (ChangesetTemplate.Title template) tmplCtx);
  body ← call (RenderChangesetTemplateField "body"
                 (ChangesetTemplate.Body template) tmplCtx);
  message ← call (RenderChangesetTemplateField "message"
                    (ExpandedGitCommitDescription.Message
                       (ChangesetTemplate.Commit template)) tmplCtx);
  defaultBranch ← call (RenderChangesetTemplateField "branch"
                          (ChangesetTemplate.Branch template) tmplCtx);
  Ok {| Rendered.authorName := fst author;
        Rendered.authorEmail := snd author;
        Rendered.title := title;
        Rendered.body := body;
        Rendered.message := message;
        Rendered.defaultBranch := defaultBranch |}.

Definition specsFor `{Collaborators} (task : Task.t)
    (result : executionResult.t) (features : FeatureFlags.t)
    (r : Rendered.t) : outcome (list ChangesetSpec.t) :=
  let mk := newSpec task features (Rendered.title r) (Rendered.body r)
              (Rendered.message r) (Rendered.authorName r)
              (Rendered.authorEmail r) in
  let repoName := Repository.Name (Task.Repository task) in
  let groups := groupsForRepository repoName (Task.TransformChanges task) in
  if negb (Nat.eqb (List.length groups) 0)
  then
    match validateGroups repoName
            (ChangesetTemplate.Branch (Task.Template task)) groups with
    | Some err => Err err
    | None =>
        match groupFileDiffs (executionResult.Diff result)
                (Rendered.defaultBranch r) groups with
        | Err err => Err (errors_Wrap err "grouping diffs failed")
        | Panic msg => Panic msg
        | Ok diffsByBranch => newSpecs mk (mapRange diffsByBranch) []
        end
    end
  else
    spec ← mk (Rendered.defaultBranch r) (executionResult.Diff result);
    Ok [spec].

(** The commit description every spec of a call carries, up to its diff. *)
Definition commitFor (r : Rendered.t) (diff : string)
    : GitCommitDescription.t :=
  {| GitCommitDescription.Message := Rendered.message r;
     GitCommitDescription.AuthorName := Rendered.authorName r;
     GitCommitDescription.AuthorEmail := Rendered.authorEmail r;
     GitCommitDescription.Diff := diff |}.

(** The spec [newSpec] builds for a branch and a diff, when it builds one. *)
Definition specFor `{Collaborators} (task : Task.t) (features : FeatureFlags.t)
    (r : Rendered.t) (branch diff : string) : ChangesetSpec.t :=
  {| ChangesetSpec.BaseRepository := Repository.ID (Task.Repository task);
     ChangesetSpec.BaseRef := BaseRef (Task.Repository task);
     ChangesetSpec.BaseRev := Rev (Task.Repository task);
     ChangesetSpec.HeadRepository := Repository.ID (Task.Repository task);
     ChangesetSpec.HeadRef := EnsureRefPrefix branch;
     ChangesetSpec.Title := Rendered.title r;
     ChangesetSpec.Body := Rendered.body r;
     ChangesetSpec.Commits := [commitFor r diff];
     ChangesetSpec.Published :=
       {| PublishedValue.Val := resolvedPublication task features branch |} |}.

(** ** The debug command: [cmd/src/debug.go]

    [src debug] runs [kubectl] or [docker] commands and archives their
    output in a zip file.  The operating system, the commands and the zip
    writer are a [Host]; what a call does to them is kept in a [world]. *)

Module Debug.

(** Go [error] values of this file: those the host returns, and those
    [fmt.Errorf] builds from a format and its operands. *)
Inductive err : Type :=
| host_error (msg : string)
| fmt_Errorf (format : string) (args : list operand)
with operand : Type :=
| op_string (s : string)
| op_int (n : nat)
| op_error (e : err).

(** A line written by [log.Printf] or [fmt.Println]. *)
Inductive output : Type :=
| log_Printf (format : string) (args : list operand)
| fmt_Println (words : list string).

(** [syscall.Rlimit]. *)
Module Rlimit.
Record t : Type := { Cur : N; Max : N }.
End Rlimit.

(** [podList]: the pods, each with its name and the names of its
    containers. *)
Module Container.
Record t : Type := { Name : string }.
End Container.

Module PodSpec.
Record t : Type := { Containers : list Container.t }.
End PodSpec.

Module PodMetadata.
Record t : Type := { Name : string }.
End PodMetadata.

Module Pod.
Record t : Type := { Metadata : PodMetadata.t; Spec : PodSpec.t }.
End Pod.

Module podList.
Record t : Type := { Items : list Pod.t }.
End podList.

(** [archiveFile]; a nil [err] is [None]. *)
Module archiveFile.
Record t : Type := { name : string; data : string; err : option Debug.err }.
End archiveFile.

(** What a call leaves behind: the files it created, the limit of open
    files it set, the entries it wrote in full to the zip archive, and
    the lines it printed. *)
Module world.
Record t : Type := {
  files : list string;
  rlimit : option Rlimit.t;
  zip : list (string * string);
  printed : list output
}.
End world.

Definition initial : world.t :=
  {| world.files := []; world.rlimit := None; world.zip := [];
     world.printed := [] |}.

(** The system under the command.  [Run], [Output] and [CombinedOutput]
    are a command line run to its end, with what it wrote and its error;
    [DecodePods] is the value the JSON decoder leaves in a [podList];
    [zipCreate] and [zipWrite] are the failures of the zip writer;
    [received] is the order in which the files sent on the channel by the
    goroutines reach the loop that archives them: any order. *)
Class Host : Type := {
  flagSet_Parse : list string → err + (string * string);
  OpenFile : string → option err;
  Getrlimit : err + Rlimit.t;
  Setrlimit : Rlimit.t → option err;
  Run : list string → string * option err;
  Output : list string → string * option err;
  CombinedOutput : list string → string * option err;
  DecodePods : string → podList.t;
  TrimSpace : string → string;
  zipCreate : list (string * string) → string → option err;
  zipWrite : string → string → option err;
  received : list archiveFile.t → list archiveFile.t;
  received_perm : ∀ sent, received sent ≡ₚ sent
}.

(** The line feed. *)
Definition newline : ascii := ascii_of_nat 10.

(** [strings.HasSuffix]. *)
Definition HasSuffix (s suffix : string) : bool :=
  (String.length suffix <=? String.length s)%nat
  && String.eqb
       (substring (String.length s - String.length suffix)
          (String.length suffix) s)
       suffix.

(** [strings.TrimSuffix]. *)
Definition TrimSuffix (s suffix : string) : string :=
  if HasSuffix s suffix
  then substring 0 (String.length s - String.length suffix) s
  else s.

(** [strings.Split(s, sep)] for a separator of one byte, as it is called
    here: the pieces between the separators, one more than there are
    separators. *)
Fixpoint Split (s : string) (sep : ascii) : list string :=
  match s with
  | EmptyString => [EmptyString]
  | String c s' =>
      if Ascii.eqb c sep then EmptyString :: Split s' sep
      else
        match Split s' sep with
        | piece :: pieces => String c piece :: pieces
        | [] => [String c EmptyString]
        end
  end.

Section Commands.
Context `{Host}.

Definition print (line : output) (w : world.t) : world.t :=
  {| world.files := world.files w; world.rlimit := world.rlimit w;
     world.zip := world.zip w; world.printed := world.printed w ++ [line] |}.

(** [setOpenFileLimits]: both limits become [n]. *)
Definition setOpenFileLimits (n : N) (w : world.t) : world.t * option err :=
  match Getrlimit with
  | inl e => (w, Some e)
  | inr rlimit =>
      let rlimit := {| Rlimit.Cur := n; Rlimit.Max := n |} in
      match Setrlimit rlimit with
      | Some e => (w, Some e)
      | None =>
          ({| world.files := world.files w; world.rlimit := Some rlimit;
              world.zip := world.zip w; world.printed := world.printed w |},
           None)
      end
  end.

(** A command run by [CombinedOutput] into an [archiveFile]. *)
Definition run (name : string) (command : list string) : archiveFile.t :=
  let out := CombinedOutput command in
  {| archiveFile.name := name; archiveFile.data := fst out;
     archiveFile.err := snd out |}.

(** [getPods]: the pods decoded from what [kubectl get pods] wrote, and
    the error of running it; the decoder's error is dropped. *)
Definition getPods : podList.t * option err :=
  let out := Run ["kubectl"; "get"; "pods"; "-l"; "deploy=sourcegraph"; "-o=json"] in
  (DecodePods (fst out), snd out).

Definition getEvents (baseDir : string) : archiveFile.t :=
  run (baseDir +:+ "/kubectl/events.txt")
    ["kubectl"; "get"; "events"; "--all-namespaces"].

Definition getPV (baseDir : string) : archiveFile.t :=
  run (baseDir +:+ "/kubectl/persistent-volumes.txt") ["kubectl"; "get"; "pv"].

Definition getPVC (baseDir : string) : archiveFile.t :=
  run (baseDir +:+ "/kubectl/persistent-volume-claims.txt")
    ["kubectl"; "get"; "pvc"].

Definition getContainerLog (podName containerName baseDir : string)
    : archiveFile.t :=
  run (baseDir +:+ "/kubectl/pods/" +:+ podName +:+ "/" +:+ containerName
       +:+ ".log")
    ["kubectl"; "logs"; podName; "-c"; containerName].

Definition getPastContainerLog (podName containerName baseDir : string)
    : archiveFile.t :=
  run (baseDir +:+ "/kubectl/pods/" +:+ podName +:+ "/" +:+ "prev-"
       +:+ containerName +:+ ".log")
    ["kubectl"; "logs"; "--previous"; podName; "-c"; containerName].

Definition getDescribe (podName baseDir : string) : archiveFile.t :=
  run (baseDir +:+ "/kubectl/pods/" +:+ podName +:+ "/describe-" +:+ podName
       +:+ ".txt")
    ["kubectl"; "describe"; "pod"; podName].

Definition getManifest (podName baseDir : string) : archiveFile.t :=
  run (baseDir +:+ "/kubectl/pods/" +:+ podName +:+ "/manifest-" +:+ podName
       +:+ ".yaml")
    ["kubectl"; "get"; "pod"; podName; "-o"; "yaml"].

Definition getLog (container baseDir : string) : archiveFile.t :=
  run (baseDir +:+ "/docker/containers/" +:+ container +:+ "/" +:+ container
       +:+ ".log")
    ["docker"; "container"; "logs"; container].

Definition getInspect (container baseDir : string) : archiveFile.t :=
  run (baseDir +:+ "/docker/containers/" +:+ container +:+ "/inspect-"
       +:+ container +:+ ".txt")
    ["docker"; "container"; "inspect"; container].

Definition getStats (baseDir : string) : archiveFile.t :=
  run (baseDir +:+ "/docker/stats.txt")
    ["docker"; "container"; "stats"; "--no-stream"].

(** [getContainers]: the lines of the trimmed output of
    [docker container ls], printed and returned with the error of the
    command. *)
Definition getContainers (w : world.t)
    : world.t * (list string * option err) :=
  let out := Output ["docker"; "container"; "ls"; "--format"; "{{.Names}}"] in
  let containers := Split (TrimSpace (fst out)) newline in
  (print (fmt_Println containers) w, (containers, snd out)).

(** The loop over the channel: the files in the order received, up to
    the first that carries an error or cannot be written. *)
Fixpoint archiveFiles (verbose : bool) (files : list archiveFile.t)
    (w : world.t) : world.t * option err :=
  match files with
  | [] => (w, None)
  | f :: rest =>
      match archiveFile.err f with
      | Some e =>
          (w, Some (fmt_Errorf
                      ("aborting due to error on %s: %v"
                       +:+ String newline "output: %s")
                      [op_string (archiveFile.name f); op_error e;
                       op_string (archiveFile.data f)]))
      | None =>
          let w :=
            if verbose
            then print (log_Printf "archiving file %q with %d bytes"
                          [op_string (archiveFile.name f);
                           op_int (String.length (archiveFile.data f))]) w
            else w in
          match zipCreate (world.zip w) (archiveFile.name f) with
          | Some e =>
              (w, Some (fmt_Errorf "failed to create %s: %w"
                          [op_string (archiveFile.name f); op_error e]))
          | None =>
              match zipWrite (archiveFile.name f) (archiveFile.data f) with
              | Some e =>
                  (w, Some (fmt_Errorf "failed to write to %s: %w"
                              [op_string (archiveFile.name f); op_error e]))
              | None =>
                  archiveFiles verbose rest
                    {| world.files := world.files w;
                       world.rlimit := world.rlimit w;
                       world.zip :=
                         world.zip w
                         ++ [(archiveFile.name f, archiveFile.data f)];
                       world.printed := world.printed w |}
              end
          end
      end
  end.

(** The pod with each of its containers, in the order of the two nested
    loops. *)
Definition podContainers (pods : podList.t) : list (string * string) :=
  pod ← podList.Items pods;
  container ← PodSpec.Containers (Pod.Spec pod);
  [(PodMetadata.Name (Pod.Metadata pod), Container.Name container)].

(** The files the goroutines of [archiveKube] send on the channel, in
    the order the goroutines are started: a previous log is sent only
    when its command succeeded. *)
Definition kubeFiles (pods : podList.t) (baseDir : string)
    : list archiveFile.t :=
  [getEvents baseDir; getPV baseDir; getPVC baseDir]
  ++ ((λ pc, getContainerLog pc.1 pc.2 baseDir) <$> podContainers pods)
  ++ List.filter (λ f, bool_decide (archiveFile.err f = None))
       ((λ pc, getPastContainerLog pc.1 pc.2 baseDir) <$> podContainers pods)
  ++ ((λ pod, getDescribe (PodMetadata.Name (Pod.Metadata pod)) baseDir)
        <$> podList.Items pods)
  ++ ((λ pod, getManifest (PodMetadata.Name (Pod.Metadata pod)) baseDir)
        <$> podList.Items pods).

Definition archiveKube (verbose : bool) (baseDir : string) (w : world.t)
    : world.t * option err :=
  let (pods, e) := getPods in
  match e with
  | Some e => (w, Some (fmt_Errorf "failed to get pods: %w" [op_error e]))
  | None =>
      let w :=
        if verbose
        then print (log_Printf
                      ("getting kubectl data for %d pods..."
                       +:+ String newline EmptyString)
                      [op_int (List.length (podList.Items pods))]) w
        else w in
      archiveFiles verbose (received (kubeFiles pods baseDir)) w
  end.

(** The files the goroutines of [archiveDocker] send on the channel. *)
Definition dockerFiles (containers : list string) (baseDir : string)
    : list archiveFile.t :=
  [getStats baseDir]
  ++ ((λ container, getLog container baseDir) <$> containers)
  ++ ((λ container, getInspect container baseDir) <$> containers).

Definition archiveDocker (verbose : bool) (baseDir : string) (w : world.t)
    : world.t * option err :=
  let '(w, (containers, e)) := getContainers w in
  match e with
  | Some e =>
      (w, Some (fmt_Errorf "failed to get docker containers: %w" [op_error e]))
  | None =>
      let w :=
        if verbose
        then print (log_Printf
                      ("getting docker data for %d containers..."
                       +:+ String newline EmptyString)
                      [op_int (List.length containers)]) w
        else w in
      archiveFiles verbose (received (dockerFiles containers baseDir)) w
  end.

(** The base directory of the archive's entries and the name of the
    archive file, from a non-empty [-out] flag. *)
Definition outPaths (base : string) : string * string :=
  if negb (HasSuffix base ".zip")
  then (base, base +:+ ".zip")
  else (TrimSuffix base ".zip", base).

(** The handler of the command, on its arguments and the global
    [-v] flag. *)
Definition handler (verbose : bool) (args : list string) (w : world.t)
    : world.t * option err :=
  match flagSet_Parse args with
  | inl e => (w, Some e)
  | inr (deployment, base) =>
      if String.eqb base ""
      then (w, Some (fmt_Errorf "empty -out flag" []))
      else
        let (baseDir, base) := outPaths base in
        match OpenFile base with
        | Some e =>
            (w, Some (fmt_Errorf "failed to open file: %w" [op_error e]))
        | None =>
            let w :=
              {| world.files := world.files w ++ [base];
                 world.rlimit := world.rlimit w;
                 world.zip := world.zip w;
                 world.printed := world.printed w |} in
            match setOpenFileLimits 64000 w with
            | (w, Some e) =>
                (w, Some (fmt_Errorf "failed to set open file limits: %w"
                            [op_error e]))
            | (w, None) =>
                if String.eqb deployment "serv" then
                  match archiveDocker verbose baseDir w with
                  | (w, Some e) =>
                      (w, Some (fmt_Errorf "archiveDocker failed with err: %w"
                                  [op_error e]))
                  | (w, None) => (w, None)
                  end
                else if String.eqb deployment "comp" then
                  match archiveDocker verbose baseDir w with
                  | (w, Some e) =>
                      (w, Some (fmt_Errorf "archiveDocker failed with err: %w"
                                  [op_error e]))
                  | (w, None) => (w, None)
                  end
                else if String.eqb deployment "kube" then
                  match archiveKube verbose baseDir w with
                  | (w, Some e) =>
                      (w, Some (fmt_Errorf "archiveKube failed with err: %w"
                                  [op_error e]))
                  | (w, None) => (w, None)
                  end
                else
                  (w, Some (fmt_Errorf
                              "must declare -d=<deployment type>, as serv, comp, or kube"
                              []))
            end
        end
  end.

End Commands.

End Debug.

(** The entry an archived file becomes. *)
Definition zipEntry (f : Debug.archiveFile.t) : string * string :=
  (Debug.archiveFile.name f, Debug.archiveFile.data f).

(** The files of [archiveKube] other than the previous logs: those whose
    command has to succeed. *)
Definition kubeRequired `{Debug.Host} (pods : Debug.podList.t)
    (baseDir : string) : list Debug.archiveFile.t :=
  [Debug.getEvents baseDir; Debug.getPV baseDir; Debug.getPVC baseDir]
  ++ ((λ pc, Debug.getContainerLog pc.1 pc.2 baseDir)
        <$> Debug.podContainers pods)
  ++ ((λ pod, Debug.getDescribe
                (Debug.PodMetadata.Name (Debug.Pod.Metadata pod)) baseDir)
        <$> Debug.podList.Items pods)
  ++ ((λ pod, Debug.getManifest
                (Debug.PodMetadata.Name (Debug.Pod.Metadata pod)) baseDir)
        <$> Debug.podList.Items pods).

(** Two worlds that differ at most in what was printed, the second
    having printed no line the first has not. *)
Definition quieter (w1 w2 : Debug.world.t) : Prop :=
  Debug.world.files w1 = Debug.world.files w2
  ∧ Debug.world.rlimit w1 = Debug.world.rlimit w2
  ∧ Debug.world.zip w1 = Debug.world.zip w2
  ∧ Debug.world.printed w2 `sublist_of` Debug.world.printed w1.

(** ** Concrete instances for the additional examples *)

(** A task whose file diffs under [backend/] get a branch of their own. *)
Module GroupedSample.

Definition task : @Task.t Sample.payloads :=
  Sample.task None None
    (Some {| TransformChanges.Group :=
               [Sample.group "backend/" "grouped-backend"] |}).

(** A task whose only group is declared for another repository. *)
Definition elsewhere : @Task.t Sample.payloads :=
  Sample.task None None
    (Some {| TransformChanges.Group :=
               [ {| Group.Directory := "backend/";
                    Group.Branch := "grouped-backend";
                    Group.Repository := "github.com/sourcegraph/sourcegraph" |} ] |}).

(** Three groups, the third on the branch of the first. *)
Definition clashing : @Task.t Sample.payloads :=
  Sample.task None None
    (Some {| TransformChanges.Group :=
               [Sample.group "a/" "x"; Sample.group "b/" "y";
                Sample.group "c/" "x"] |}).

(** A template with an author and a publication policy. *)
Definition complete : @Task.t Sample.payloads :=
  Sample.task
    (Some {| GitCommitAuthor.Name := "Ada";
             GitCommitAuthor.Email := "ada@example.com" |})
    (Some (Some (any_bool true))) None.

Definition rendered : Rendered.t :=
  {| Rendered.authorName := "Sourcegraph";
     Rendered.authorEmail := "batch-changes@sourcegraph.com";
     Rendered.title := "Update";
     Rendered.body := "Body";
     Rendered.message := "msg";
     Rendered.defaultBranch := "main" |}.

End GroupedSample.

(** A host for [src debug]: one pod with two containers, none of which
    was restarted, two docker containers, an output file that exists
    already, and files that reach the archiving loop in the reverse of
    the order they were sent in. *)
Module DebugSample.

(** Flags written [-d=...] and [-out=...]. *)
Definition parseFlag (flags : string * string) (arg : string)
    : Debug.err + (string * string) :=
  if String.prefix "-d=" arg
  then inr (substring 3 (String.length arg - 3) arg, flags.2)
  else if String.prefix "-out=" arg
  then inr (flags.1, substring 5 (String.length arg - 5) arg)
  else inl (Debug.host_error ("flag provided but not defined: " +:+ arg)).

Definition flagSet_Parse (args : list string)
    : Debug.err + (string * string) :=
  foldl (λ parsed arg,
           match parsed with
           | inl e => inl e
           | inr flags => parseFlag flags arg
           end)
    (inr ("", "debug.zip")) args.

Definition OpenFile (name : string) : option Debug.err :=
  if String.eqb name "exists.zip"
  then Some (Debug.host_error "open exists.zip: file exists")
  else None.

Definition Run (command : list string) : string * option Debug.err :=
  if decide (command
             = ["kubectl"; "get"; "pods"; "-l"; "deploy=sourcegraph";
                "-o=json"])
  then ("pods", None)
  else ("", Some (Debug.host_error "executable file not found in $PATH")).

Definition DecodePods (text : string) : Debug.podList.t :=
  if String.eqb text "pods"
  then {| Debug.podList.Items :=
            [ {| Debug.Pod.Metadata :=
                   {| Debug.PodMetadata.Name := "frontend-0" |};
                 Debug.Pod.Spec :=
                   {| Debug.PodSpec.Containers :=
                        [ {| Debug.Container.Name := "frontend" |};
                          {| Debug.Container.Name := "jaeger" |} ] |} |} ] |}
  else {| Debug.podList.Items := [] |}.

Definition Output (command : list string) : string * option Debug.err :=
  ("sourcegraph" +:+ String Debug.newline "redis"
   +:+ String Debug.newline "", None).

(** [kubectl logs --previous] fails; every other command succeeds. *)
Definition CombinedOutput (command : list string)
    : string * option Debug.err :=
  if decide (take 3 command = ["kubectl"; "logs"; "--previous"])
  then ("previous terminated container not found",
        Some (Debug.host_error "exit status 1"))
  else ("output of " +:+ String.concat " " command, None).

(** The white space of ASCII: the space and the bytes 9 to 13.  The
    outputs of this host hold no other white space. *)
Definition isSpace (c : ascii) : bool :=
  Ascii.eqb c " "
  || (9 <=? nat_of_ascii c)%nat && (nat_of_ascii c <=? 13)%nat.

Fixpoint trimLeft (s : string) : string :=
  match s with
  | EmptyString => EmptyString
  | String c s' => if isSpace c then trimLeft s' else s
  end.

Fixpoint trimRight (s : string) : string :=
  match s with
  | EmptyString => EmptyString
  | String c s' =>
      match trimRight s' with
      | EmptyString => if isSpace c then EmptyString else String c EmptyString
      | trimmed => String c trimmed
      end
  end.

Definition TrimSpace (s : string) : string := trimRight (trimLeft s).

Definition host : Debug.Host :=
  {| Debug.flagSet_Parse := flagSet_Parse;
     Debug.OpenFile := OpenFile;
     Debug.Getrlimit := inr {| Debug.Rlimit.Cur := 1024;
                               Debug.Rlimit.Max := 4096 |};
     Debug.Setrlimit := λ _, None;
     Debug.Run := Run;
     Debug.Output := Output;
     Debug.CombinedOutput := CombinedOutput;
     Debug.DecodePods := DecodePods;
     Debug.TrimSpace := TrimSpace;
     Debug.zipCreate := λ _ _, None;
     Debug.zipWrite := λ _ _, None;
     Debug.received := reverse;
     Debug.received_perm := reverse_Permutation |}.

End DebugSample.


(** * Facts about the string functions *)

Lemma prefix_app (p s : string) :
  String.prefix p s = true ↔ ∃ post, s = p +:+ post.
Proof.
  revert s. induction p as [|a p IH]; intros s.
  - split; [intros _; exists s; reflexivity | by destruct s].
  - destruct s as [|b s]; simpl.
    + split; [done | intros [post Hpost]; discriminate].
    + destruct (ascii_dec a b) as [->|Hab].
      * rewrite IH. split; intros [post Hpost]; exists post.
        -- by rewrite Hpost.
        -- simpl in Hpost. by injection Hpost.
      * split; [done | intros [post Hpost]; simpl in Hpost].
        injection Hpost as Hba _. by destruct Hab.
Qed.


Lemma Contains_empty (s : string) : Contains s "" = true.
Proof. by destruct s. Qed.

(** [Contains] is containment: [substr] occurs somewhere inside [s]. *)
Lemma Contains_spec (s substr : string) :
  Contains s substr = true ↔ ∃ pre post, s = pre +:+ substr +:+ post.
Proof.
  induction s as [|a s IH].
  - cbn [Contains]. rewrite orb_false_r, prefix_app. split.
    + intros [post Hpost]. by exists "", post.
    + intros [pre [post Hs]]. destruct pre; [by exists post | discriminate].
  - cbn [Contains]. rewrite orb_true_iff, prefix_app, IH. split.
    + intros [[post Hpost] | [pre [post Hs]]].
      * by exists "", post.
      * exists (String a pre), post. simpl. by rewrite Hs.
    + intros [pre [post Hs]]. destruct pre as [|b pre].
      * left. by exists post.
      * right. injection Hs as -> Hs. by exists pre, post.
Qed.

(** * Group selection *)

Lemma groupsForRepository_loop (repoName : string) (gs acc : list Group.t) :
  fold_left
    (fun groups g =>
       if negb (String.eqb (Group.Repository g) "")
       then if String.eqb (Group.Repository g) repoName
            then groups ++ [g]
            else groups
       else groups ++ [g])
    gs acc
  = acc ++ applicableGroups repoName gs.
Proof.
  revert acc. induction gs as [|g gs IH]; intros acc; simpl.
  - by rewrite app_nil_r.
  - rewrite IH. unfold applicableGroups. simpl.
    destruct (String.eqb (Group.Repository g) ""); simpl.
    + by rewrite <- app_assoc.
    + destruct (String.eqb (Group.Repository g) repoName).
      * by rewrite <- app_assoc.
      * done.
Qed.

Lemma groupsForRepository_applicable (repoName : string)
    (transform : option TransformChanges.t) :
  groupsForRepository repoName transform
  = match transform with
    | None => []
    | Some tc => applicableGroups repoName (TransformChanges.Group tc)
    end.
Proof.
  destruct transform as [tc|]; [|done].
  unfold groupsForRepository. by rewrite groupsForRepository_loop.
Qed.

(** * Group validation *)

Lemma validateGroups_from_None (repoName defaultBranch : string)
    (seen : gset string) (groups : list Group.t) :
  validateGroups_from repoName defaultBranch seen groups = None
  ↔ NoDup (Group.Branch <$> groups)
    ∧ Forall (λ g, (Group.Branch g ∉ seen) ∧ (Group.Branch g ≠ defaultBranch))
        groups.
Proof.
  revert seen. induction groups as [|g groups IH]; intros seen; simpl.
  - split; [intros _; split; constructor | done].
  - rewrite NoDup_cons, Forall_cons.
    destruct (decide (Group.Branch g ∈ seen)) as [Hin|Hnotin].
    { split; [done | tauto]. }
    destruct (String.eqb_spec (Group.Branch g) defaultBranch) as [Heq|Hne].
    { split; [done | tauto]. }
    rewrite IH, !Forall_forall. split.
    + intros [Hnodup Hall]. split; [split; [|done] | split; [done|]].
      * intros Hdup. apply list_elem_of_fmap in Hdup as [g' [Hg' Hin']].
        apply Hall in Hin' as [Hfresh _]. apply Hfresh.
        rewrite <- Hg'. apply elem_of_union_l. by apply elem_of_singleton.
      * intros g' Hin'. apply Hall in Hin' as [Hfresh Hne']. split; [|done].
        intros Hseen. apply Hfresh. by apply elem_of_union_r.
    + intros [[Hfresh Hnodup] [_ Hall]]. split; [done|].
      intros g' Hin'. split; [|by apply Hall].
      intros Hseen. apply elem_of_union in Hseen as [Hsame|Hseen].
      * apply elem_of_singleton in Hsame. apply Hfresh.
        rewrite <- Hsame. by apply list_elem_of_fmap_2.
      * by destruct (Hall g' Hin').
Qed.

(** A list with a repeated element has it at two positions. *)
Lemma not_NoDup_positions (l : list string) :
  ¬ NoDup l → ∃ i j x, i < j ∧ l !! i = Some x ∧ l !! j = Some x.
Proof.
  induction l as [|a l IH]; intros Hdup.
  - destruct Hdup. constructor.
  - destruct (decide (a ∈ l)) as [Hin|Hnotin].
    + apply list_elem_of_lookup in Hin as [j Hj].
      exists 0, (S j), a. split; [lia | by split].
    + destruct IH as (i & j & x & Hij & Hi & Hj).
      { intros Hnodup. apply Hdup. by constructor. }
      exists (S i), (S j), x. split; [lia | by split].
Qed.

(** When validation fails, everything before the offending group is sound,
    and the error names what is wrong with that group. *)
Lemma validateGroups_from_Some (repoName defaultBranch : string)
    (seen : gset string) (groups : list Group.t) (e : error) :
  validateGroups_from repoName defaultBranch seen groups = Some e →
  ∃ pre g post,
    groups = pre ++ g :: post
    ∧ validateGroups_from repoName defaultBranch seen pre = None
    ∧ (((Group.Branch g ∈ seen ∨ Group.Branch g ∈ (Group.Branch <$> pre))
        ∧ e = errDuplicateBranch repoName (Group.Branch g))
       ∨ ((Group.Branch g ∉ seen) ∧ (Group.Branch g ∉ (Group.Branch <$> pre))
          ∧ Group.Branch g = defaultBranch
          ∧ e = errDefaultBranch repoName defaultBranch)).
Proof.
  revert seen. induction groups as [|g groups IH]; intros seen; simpl; [done|].
  destruct (decide (Group.Branch g ∈ seen)) as [Hin|Hnotin].
  { intros [= <-]. exists [], g, groups. repeat split. left. split; [by left|done]. }
  destruct (String.eqb_spec (Group.Branch g) defaultBranch) as [Heq|Hne].
  { intros [= <-]. exists [], g, groups. repeat split. right.
    repeat split; [done | by intros ?%elem_of_nil | done]. }
  intros Hsome. apply IH in Hsome as (pre & g' & post & -> & Hpre & Hcase).
  exists (g :: pre), g', post. split; [done|]. split.
  - simpl. rewrite decide_False by done.
    by destruct (String.eqb_spec (Group.Branch g) defaultBranch).
  - destruct Hcase as [[Hdup ->] | (Hfresh & Hpre' & Hdef & ->)].
    + left. split; [|done]. rewrite fmap_cons, elem_of_cons.
      destruct Hdup as [Hseen|Hin]; [|tauto].
      apply elem_of_union in Hseen as [Hsame%elem_of_singleton|Hseen]; tauto.
    + right. repeat split; [set_solver | | done].
      rewrite fmap_cons, not_elem_of_cons. split; [set_solver | done].
Qed.

(** C4: [validateGroups] fails exactly when two groups share a branch or a
    group's branch is the default branch; it accepts the empty list; and a
    failure reports the first offending group in declaration order, as a
    duplicate when its branch was seen before and as a clash with the
    default branch otherwise. *)
Theorem validateGroups_fails_iff_first_violation
    (repoName defaultBranch : string) (groups : list Group.t) :
  (is_Some (validateGroups repoName defaultBranch groups)
   ↔ (∃ i j gi gj, i < j ∧ groups !! i = Some gi ∧ groups !! j = Some gj
                   ∧ Group.Branch gi = Group.Branch gj)
     ∨ (∃ g, g ∈ groups ∧ Group.Branch g = defaultBranch))
  ∧ validateGroups repoName defaultBranch [] = None
  ∧ (∀ e, validateGroups repoName defaultBranch groups = Some e →
       ∃ pre g post,
         groups = pre ++ g :: post
         ∧ validateGroups repoName defaultBranch pre = None
         ∧ ((Group.Branch g ∈ (Group.Branch <$> pre)
             ∧ e = errDuplicateBranch repoName (Group.Branch g))
            ∨ ((Group.Branch g ∉ (Group.Branch <$> pre))
               ∧ Group.Branch g = defaultBranch
               ∧ e = errDefaultBranch repoName defaultBranch))).
Proof.
  unfold validateGroups. split; [|split; [done|]].
  - rewrite <- not_eq_None_Some, validateGroups_from_None. split.
    + intros Hbad.
      destruct (decide (NoDup (Group.Branch <$> groups))) as [Hnodup|Hdup].
      * right.
        destruct (decide (Exists (λ g, Group.Branch g = defaultBranch) groups))
          as [Hex|Hnex].
        -- apply Exists_exists in Hex as [g [Hin Hg]]. by exists g.
        -- destruct Hbad. split; [done|]. apply Forall_forall.
           intros g Hin. split; [set_solver|].
           intros Hg. apply Hnex, Exists_exists. by exists g.
      * left. apply not_NoDup_positions in Hdup as (i & j & b & Hij & Hi & Hj).
        apply list_lookup_fmap_Some in Hi as (gi & -> & Hi).
        apply list_lookup_fmap_Some in Hj as (gj & Hb & Hj).
        by exists i, j, gi, gj.
    + intros [(i & j & gi & gj & Hij & Hi & Hj & Hb) | (g & Hin & Hg)]
        [Hnodup Hall].
      * assert (i = j); [|lia].
        eapply NoDup_lookup; [exact Hnodup | |].
        -- rewrite list_lookup_fmap, Hi. done.
        -- rewrite list_lookup_fmap, Hj. simpl. by rewrite Hb.
      * rewrite Forall_forall in Hall. by apply Hall in Hin as [_ Hne].
  - intros e He.
    apply validateGroups_from_Some in He as (pre & g & post & -> & Hpre & Hcase).
    exists pre, g, post. repeat split; [done|].
    destruct Hcase as [[[Hseen|Hin] ->] | (_ & Hfresh & Hdef & ->)];
      [set_solver | by left | by right].
Qed.

(** * The partitioner: from the loops to the targets of the file diffs *)

Lemma lookupTables_snoc (groups : list Group.t) (g : Group.t) :
  lookupTables (groups ++ [g])
  = (<[Group.Directory g := Group.Branch g]> (fst (lookupTables groups)),
     snd (lookupTables groups) ++ [Group.Directory g]).
Proof. unfold lookupTables. by rewrite fold_left_app. Qed.

Lemma lookupTables_dirs (groups : list Group.t) :
  snd (lookupTables groups) = Group.Directory <$> groups.
Proof.
  induction groups as [|g groups IH] using rev_ind; [done|].
  rewrite lookupTables_snoc, fmap_app. simpl. by rewrite IH.
Qed.

(** Every declared directory is a key of the lookup. *)
Lemma lookupTables_is_Some (groups : list Group.t) (d : string) :
  d ∈ snd (lookupTables groups) → is_Some (fst (lookupTables groups) !! d).
Proof.
  induction groups as [|g groups IH] using rev_ind.
  - by intros ?%elem_of_nil.
  - rewrite lookupTables_snoc. simpl. intros Hin.
    destruct (decide (Group.Directory g = d)) as [->|Hne].
    + rewrite lookup_insert_eq. by eexists.
    + rewrite lookup_insert_ne by done. apply IH.
      apply elem_of_app in Hin as [Hin|Hin]; [done|].
      apply list_elem_of_singleton in Hin. congruence.
Qed.

Lemma lastMatchingDir_snoc (dirs : list string) (d name : string) :
  lastMatchingDir (dirs ++ [d]) name
  = if Contains name d then d else lastMatchingDir dirs name.
Proof. unfold lastMatchingDir. by rewrite fold_left_app. Qed.

Lemma lastMatchingGroup_snoc (groups : list Group.t) (g : Group.t)
    (name : string) :
  lastMatchingGroup (groups ++ [g]) name
  = if Contains name (Group.Directory g) then Some g
    else lastMatchingGroup groups name.
Proof.
  unfold lastMatchingGroup. rewrite List.filter_app. simpl.
  destruct (Contains name (Group.Directory g)).
  - by rewrite last_snoc.
  - by rewrite app_nil_r.
Qed.

(** The selected directory is in the list and contained in the name, or it
    is the zero value and nothing declared is contained in the name. *)
Lemma lastMatchingDir_cases (dirs : list string) (name : string) :
  (lastMatchingDir dirs name ∈ dirs
   ∧ Contains name (lastMatchingDir dirs name) = true)
  ∨ (lastMatchingDir dirs name = ""
     ∧ ∀ d, d ∈ dirs → Contains name d = false).
Proof.
  induction dirs as [|d dirs IH] using rev_ind.
  - right. split; [done|]. by intros d ?%elem_of_nil.
  - rewrite lastMatchingDir_snoc.
    destruct (Contains name d) eqn:Hd.
    + left. split; [|done]. apply elem_of_app. right. by apply list_elem_of_singleton.
    + destruct IH as [[Hin Hc] | [Hnone Hall]].
      * left. split; [|done]. apply elem_of_app. by left.
      * right. split; [done|]. intros d' Hin.
        apply elem_of_app in Hin as [Hin|Hin]; [by apply Hall|].
        apply list_elem_of_singleton in Hin. by subst.
Qed.

(** The loop over [dirs] selects the directory of the last matching group. *)
Lemma lastMatchingDir_group (groups : list Group.t) (name : string) :
  lastMatchingDir (Group.Directory <$> groups) name
  = from_option Group.Directory "" (lastMatchingGroup groups name).
Proof.
  induction groups as [|g groups IH] using rev_ind; [done|].
  rewrite fmap_app. simpl.
  rewrite lastMatchingDir_snoc, lastMatchingGroup_snoc.
  by destruct (Contains name (Group.Directory g)).
Qed.

Lemma lastMatchingGroup_matches (groups : list Group.t) (name : string)
    (g : Group.t) :
  lastMatchingGroup groups name = Some g →
  Contains name (Group.Directory g) = true.
Proof.
  induction groups as [|g' groups IH] using rev_ind; [done|].
  rewrite lastMatchingGroup_snoc.
  destruct (Contains name (Group.Directory g')) eqn:Hd; [|done].
  by intros [= <-].
Qed.

(** The lookup maps the directory of the last matching group to that very
    group's branch: a later group with the same directory would match too. *)
Lemma lookupTables_lastMatchingGroup (groups : list Group.t) (name : string)
    (g : Group.t) :
  lastMatchingGroup groups name = Some g →
  fst (lookupTables groups) !! Group.Directory g = Some (Group.Branch g).
Proof.
  induction groups as [|g' groups IH] using rev_ind; [done|].
  rewrite lastMatchingGroup_snoc, lookupTables_snoc. simpl.
  destruct (Contains name (Group.Directory g')) eqn:Hd.
  - intros [= <-]. by rewrite lookup_insert_eq.
  - intros Hlast. rewrite lookup_insert_ne; [by apply IH|].
    intros Heq. apply lastMatchingGroup_matches in Hlast. congruence.
Qed.

(** Given the list the tables were built from, which split of it ends in
    the last match. *)
Lemma lastMatchingGroup_split (pre post : list Group.t) (g : Group.t)
    (name : string) :
  Contains name (Group.Directory g) = true →
  (∀ g', g' ∈ post → Contains name (Group.Directory g') = false) →
  lastMatchingGroup (pre ++ g :: post) name = Some g.
Proof.
  intros Hg. induction post as [|g' post IH] using rev_ind; intros Hpost.
  - by rewrite lastMatchingGroup_snoc, Hg.
  - replace (pre ++ g :: post ++ [g']) with ((pre ++ g :: post) ++ [g'])
      by (by rewrite <- app_assoc).
    rewrite lastMatchingGroup_snoc, Hpost.
    + apply IH. intros g'' Hin. apply Hpost, elem_of_app. by left.
    + apply elem_of_app. right. by apply list_elem_of_singleton.
Qed.

(** The loop body never panics, and files the diff under its target. *)
Lemma assignFileDiff_target (groups : list Group.t) (defaultBranch : string)
    (byBranch : gmap string (list FileDiff.t)) (f : FileDiff.t) :
  assignFileDiff (fst (lookupTables groups)) (snd (lookupTables groups))
    defaultBranch byBranch f
  = Ok (appendTo byBranch (targetBranch groups defaultBranch f) f).
Proof.
  unfold assignFileDiff, targetBranch.
  rewrite lookupTables_dirs, lastMatchingDir_group.
  destruct (lastMatchingGroup groups (effectiveName f)) as [g|] eqn:Hlast;
    simpl; [|done].
  destruct (String.eqb (Group.Directory g) ""); [done|].
  by rewrite (lookupTables_lastMatchingGroup _ _ _ Hlast).
Qed.

Lemma assignFileDiffs_foldl (groups : list Group.t) (defaultBranch : string)
    (fileDiffs : list FileDiff.t) (byBranch : gmap string (list FileDiff.t)) :
  assignFileDiffs (fst (lookupTables groups)) (snd (lookupTables groups))
    defaultBranch byBranch fileDiffs
  = Ok (foldl (λ m f, appendTo m (targetBranch groups defaultBranch f) f)
          byBranch fileDiffs).
Proof.
  revert byBranch. induction fileDiffs as [|f fileDiffs IH]; intros byBranch;
    simpl; [done|].
  rewrite assignFileDiff_target. simpl. apply IH.
Qed.

Lemma foldl_appendTo_lookup (groups : list Group.t) (defaultBranch : string)
    (fileDiffs : list FileDiff.t) (byBranch : gmap string (list FileDiff.t))
    (branch : string) :
  foldl (λ m f, appendTo m (targetBranch groups defaultBranch f) f)
    byBranch fileDiffs !! branch
  = match assigned groups defaultBranch branch fileDiffs with
    | [] => byBranch !! branch
    | l => Some (default [] (byBranch !! branch) ++ l)
    end.
Proof.
  revert byBranch. induction fileDiffs as [|f fileDiffs IH]; intros byBranch;
    simpl; [done|].
  rewrite IH. unfold assigned, appendTo. simpl.
  destruct (String.eqb_spec (targetBranch groups defaultBranch f) branch)
    as [->|Hne].
  - rewrite lookup_insert_eq. simpl.
    destruct (List.filter _ fileDiffs); [done|].
    by rewrite <- app_assoc.
  - by rewrite lookup_insert_ne.
Qed.

(** What the partitioner builds before printing: the default branch holds
    its file diffs, every other branch is present exactly when some file
    diff belongs to it, and each list keeps the input order. *)
Lemma fileDiffsByBranch_lookup (fileDiffs : list FileDiff.t)
    (defaultBranch : string) (groups : list Group.t) :
  ∃ byBranch,
    fileDiffsByBranch fileDiffs defaultBranch groups = Ok byBranch
    ∧ ∀ branch,
        byBranch !! branch
        = if decide (branch = defaultBranch)
          then Some (assigned groups defaultBranch branch fileDiffs)
          else match assigned groups defaultBranch branch fileDiffs with
               | [] => None
               | l => Some l
               end.
Proof.
  eexists. split.
  - unfold fileDiffsByBranch. apply assignFileDiffs_foldl.
  - intros branch. rewrite foldl_appendTo_lookup.
    destruct (decide (branch = defaultBranch)) as [->|Hne].
    + rewrite lookup_insert_eq. simpl.
      by destruct (assigned groups defaultBranch defaultBranch fileDiffs).
    + rewrite lookup_insert_ne, lookup_empty by done. simpl.
      by destruct (assigned groups defaultBranch branch fileDiffs).
Qed.

Lemma assigned_elem_of (groups : list Group.t) (defaultBranch branch : string)
    (fileDiffs : list FileDiff.t) (f : FileDiff.t) :
  f ∈ assigned groups defaultBranch branch fileDiffs
  ↔ f ∈ fileDiffs ∧ targetBranch groups defaultBranch f = branch.
Proof.
  unfold assigned. rewrite !list_elem_of_In, filter_In.
  by rewrite String.eqb_eq.
Qed.

Lemma assigned_nil (groups : list Group.t) (defaultBranch branch : string)
    (fileDiffs : list FileDiff.t) :
  assigned groups defaultBranch branch fileDiffs = []
  ↔ ∀ f, f ∈ fileDiffs → targetBranch groups defaultBranch f ≠ branch.
Proof.
  split.
  - intros Hnil f Hin Htarget.
    assert (f ∈ assigned groups defaultBranch branch fileDiffs) as Hf
      by by apply assigned_elem_of.
    rewrite Hnil in Hf. by apply elem_of_nil in Hf.
  - intros Hall.
    destruct (assigned groups defaultBranch branch fileDiffs) as [|f l] eqn:Hl;
      [done|].
    assert (f ∈ assigned groups defaultBranch branch fileDiffs) as Hf
      by (rewrite Hl; by left).
    apply assigned_elem_of in Hf as [Hin Htarget]. by apply Hall in Hin.
Qed.

(** Appending a file diff under a branch adds it once to the lists of the
    map taken together. *)
Lemma appendTo_values (byBranch : gmap string (list FileDiff.t))
    (branch : string) (f : FileDiff.t) :
  mjoin (map_to_list (appendTo byBranch branch f)).*2
  ≡ₚ f :: mjoin (map_to_list byBranch).*2.
Proof.
  unfold appendTo. destruct (byBranch !! branch) as [l|] eqn:Hl; simpl.
  - rewrite <- (map_to_list_delete byBranch branch l Hl).
    rewrite <- insert_delete_eq.
    rewrite map_to_list_insert by apply lookup_delete_eq.
    rewrite !fmap_cons. cbn [mjoin list_join snd].
    rewrite <- app_assoc. cbn [app]. by rewrite <- Permutation_middle.
  - rewrite map_to_list_insert by done. done.
Qed.

Lemma foldl_appendTo_values (target : FileDiff.t → string)
    (fileDiffs : list FileDiff.t) (byBranch : gmap string (list FileDiff.t)) :
  mjoin (map_to_list (foldl (λ m f, appendTo m (target f) f) byBranch fileDiffs)).*2
  ≡ₚ mjoin (map_to_list byBranch).*2 ++ fileDiffs.
Proof.
  revert byBranch. induction fileDiffs as [|f fileDiffs IH]; intros byBranch;
    simpl.
  - by rewrite app_nil_r.
  - rewrite IH, appendTo_values. by rewrite <- Permutation_middle.
Qed.

(** The lists of the partition, taken together, are the parsed file diffs:
    each of them once. *)
Lemma fileDiffsByBranch_values (fileDiffs : list FileDiff.t)
    (defaultBranch : string) (groups : list Group.t)
    (byBranch : gmap string (list FileDiff.t)) :
  fileDiffsByBranch fileDiffs defaultBranch groups = Ok byBranch →
  mjoin (map_to_list byBranch).*2 ≡ₚ fileDiffs.
Proof.
  unfold fileDiffsByBranch. rewrite assignFileDiffs_foldl. intros [= <-].
  rewrite foldl_appendTo_values, insert_empty, map_to_list_singleton. done.
Qed.

(** * Printing and the result of [groupFileDiffs] *)

Section Grouping.
Context `{Collaborators}.

Lemma mapRange_elem_of {V : Type} (m : gmap string V) (k : string) (v : V) :
  (k, v) ∈ mapRange m ↔ m !! k = Some v.
Proof. by rewrite (mapRange_perm V m), elem_of_map_to_list. Qed.

Lemma mapRange_NoDup {V : Type} (m : gmap string V) : NoDup (mapRange m).*1.
Proof. rewrite (mapRange_perm V m). apply NoDup_fst_map_to_list. Qed.

(** The printing loop either prints every entry or stops at one it
    cannot print, wrapping the printer's error. *)
Lemma printBranches_cases (entries : list (string * list FileDiff.t))
    (acc : gmap string string) :
  (∃ final, printBranches entries acc = Ok final
            ∧ ∀ branch diffs, (branch, diffs) ∈ entries →
                ∃ printed, PrintMultiFileDiff diffs = inr printed)
  ∨ (∃ branch diffs err,
       (branch, diffs) ∈ entries
       ∧ PrintMultiFileDiff diffs = inl err
       ∧ printBranches entries acc
         = Err (errors_Wrap err "printing multi file diff failed")).
Proof.
  revert acc. induction entries as [|[branch diffs] entries IH]; intros acc.
  - left. exists acc. split; [done|]. by intros ?? ?%elem_of_nil.
  - simpl. destruct (PrintMultiFileDiff diffs) as [err|printed] eqn:Hprint.
    + right. exists branch, diffs, err. split; [by left | done].
    + destruct (IH (<[branch := printed]> acc))
        as [(final & Hfinal & Hall) | (b & l & err & Hin & Herr & Hres)].
      * left. exists final. split; [done|].
        intros b l [[= -> ->] | Hin]%elem_of_cons; [by exists printed|].
        by apply Hall with b.
      * right. exists b, l, err. split; [by right | done].
Qed.

(** On success the result maps every visited branch to its printed list
    and keeps what the accumulator held for the others. *)
Lemma printBranches_lookup (entries : list (string * list FileDiff.t))
    (acc final : gmap string string) (branch : string) :
  NoDup entries.*1 →
  printBranches entries acc = Ok final →
  (∀ diffs, (branch, diffs) ∈ entries →
     ∃ printed, PrintMultiFileDiff diffs = inr printed
                ∧ final !! branch = Some printed)
  ∧ (branch ∉ entries.*1 → final !! branch = acc !! branch).
Proof.
  revert acc. induction entries as [|[b l] entries IH]; intros acc Hnodup.
  - simpl. intros [= <-]. split; [by intros ? ?%elem_of_nil | done].
  - simpl in *. apply NoDup_cons in Hnodup as [Hfresh Hnodup].
    destruct (PrintMultiFileDiff l) as [err|printed] eqn:Hprint; [done|].
    intros Hfinal. destruct (IH _ Hnodup Hfinal) as [Hin Hout]. split.
    + intros diffs [[= <- <-] | Hdiffs]%elem_of_cons; [|by apply Hin].
      exists printed. split; [done|].
      rewrite Hout by done. apply lookup_insert_eq.
    + intros [Hne Hnotin]%not_elem_of_cons.
      rewrite Hout by done. by apply lookup_insert_ne.
Qed.

(** A parse failure is returned as the parser gave it. *)
Lemma groupFileDiffs_parse_failure (completeDiff defaultBranch : string)
    (groups : list Group.t) (err : error) :
  ParseMultiFileDiff completeDiff = inl err →
  groupFileDiffs completeDiff defaultBranch groups = Err err.
Proof. intros Hparse. unfold groupFileDiffs. by rewrite Hparse. Qed.

(** After a successful parse, [groupFileDiffs] is the printing loop run
    over the partition of the parsed file diffs. *)
Lemma groupFileDiffs_parsed (completeDiff defaultBranch : string)
    (groups : list Group.t) (fileDiffs : list FileDiff.t) :
  ParseMultiFileDiff completeDiff = inr fileDiffs →
  ∃ byBranch,
    fileDiffsByBranch fileDiffs defaultBranch groups = Ok byBranch
    ∧ groupFileDiffs completeDiff defaultBranch groups
      = printBranches (mapRange byBranch) ∅.
Proof.
  intros Hparse.
  destruct (fileDiffsByBranch_lookup fileDiffs defaultBranch groups)
    as (byBranch & HbyBranch & _).
  exists byBranch. split; [done|].
  unfold groupFileDiffs. rewrite Hparse. simpl. by rewrite HbyBranch.
Qed.

(** The branches of a successful result and what each maps to. *)
Lemma groupFileDiffs_lookup (completeDiff defaultBranch : string)
    (groups : list Group.t) (fileDiffs : list FileDiff.t)
    (final : gmap string string) (branch : string) :
  ParseMultiFileDiff completeDiff = inr fileDiffs →
  groupFileDiffs completeDiff defaultBranch groups = Ok final →
  if decide (branch = defaultBranch
             ∨ assigned groups defaultBranch branch fileDiffs ≠ [])
  then ∃ printed,
         PrintMultiFileDiff (assigned groups defaultBranch branch fileDiffs)
         = inr printed
         ∧ final !! branch = Some printed
  else final !! branch = None.
Proof.
  intros Hparse Hfinal.
  destruct (groupFileDiffs_parsed _ defaultBranch groups _ Hparse)
    as (byBranch & HbyBranch & Hgroup).
  rewrite Hgroup in Hfinal.
  destruct (fileDiffsByBranch_lookup fileDiffs defaultBranch groups)
    as (byBranch' & HbyBranch' & Hlookup).
  rewrite HbyBranch in HbyBranch'. injection HbyBranch' as <-.
  destruct (printBranches_lookup _ _ _ branch (mapRange_NoDup byBranch) Hfinal)
    as [Hin Hout].
  specialize (Hlookup branch).
  destruct (decide (branch = defaultBranch
                    ∨ assigned groups defaultBranch branch fileDiffs ≠ []))
    as [Hpresent|Habsent].
  - apply Hin, mapRange_elem_of. rewrite Hlookup.
    destruct (decide (branch = defaultBranch)); [done|].
    destruct (assigned groups defaultBranch branch fileDiffs); [|done].
    by destruct Hpresent.
  - rewrite Hout, lookup_empty; [done|].
    intros [[b l] [Hb Hbl]]%list_elem_of_fmap. simpl in Hb. subst b.
    apply mapRange_elem_of in Hbl. rewrite Hlookup in Hbl.
    destruct (decide (branch = defaultBranch)); [tauto|].
    destruct (assigned groups defaultBranch branch fileDiffs); [done|].
    apply Habsent. by right.
Qed.

(** [groupFileDiffs] never panics. *)
Lemma groupFileDiffs_outcome (completeDiff defaultBranch : string)
    (groups : list Group.t) :
  (∃ final, groupFileDiffs completeDiff defaultBranch groups = Ok final)
  ∨ (∃ err, groupFileDiffs completeDiff defaultBranch groups = Err err).
Proof.
  destruct (ParseMultiFileDiff completeDiff) as [err|fileDiffs] eqn:Hparse.
  - right. exists err. by apply groupFileDiffs_parse_failure.
  - destruct (groupFileDiffs_parsed _ defaultBranch groups _ Hparse)
      as (byBranch & _ & ->).
    destruct (printBranches_cases (mapRange byBranch) ∅)
      as [(final & -> & _) | (b & l & err & _ & _ & ->)]; eauto.
Qed.

End Grouping.

(** * The assembler *)

Section Assembly.
Context `{Collaborators}.

(** Case analysis on the render call of one field: its failure, then its
    result. *)
Ltac case_render field :=
  destruct (RenderChangesetTemplateField field _ _); simpl.

Lemma createChangesetSpecs_stages (task : Task.t) (result : executionResult.t)
    (features : FeatureFlags.t) :
  createChangesetSpecs task result features
  = (r ← renderedFields task result features;
     specsFor task result features r).
Proof.
  unfold createChangesetSpecs, renderedFields, specsFor.
  destruct (resolveAuthor task features (templateContext task result))
    as [author|err|msg]; simpl; [|done|done].
  case_render "title"; [done|]. case_render "body"; [done|].
  case_render "message"; [done|]. by case_render "branch".
Qed.

(** Rendering never panics. *)
Lemma renderedFields_outcome (task : Task.t) (result : executionResult.t)
    (features : FeatureFlags.t) :
  (∃ r, renderedFields task result features = Ok r)
  ∨ (∃ err, renderedFields task result features = Err err).
Proof.
  unfold renderedFields, resolveAuthor.
  destruct (ExpandedGitCommitDescription.Author _) as [author|].
  - case_render "authorName"; [by eauto|].
    case_render "authorEmail"; [by eauto|].
    case_render "title"; [by eauto|]. case_render "body"; [by eauto|].
    case_render "message"; [by eauto|]. case_render "branch"; by eauto.
  - destruct (FeatureFlags.IncludeAutoAuthorDetails features); simpl;
      (case_render "title"; [by eauto|]); (case_render "body"; [by eauto|]);
      (case_render "message"; [by eauto|]); case_render "branch"; by eauto.
Qed.

(** The branch of a rendered call is the rendered branch template, and the
    author is what [resolveAuthor] returned. *)
Lemma renderedFields_Ok (task : Task.t) (result : executionResult.t)
    (features : FeatureFlags.t) (r : Rendered.t) :
  renderedFields task result features = Ok r →
  resolveAuthor task features (templateContext task result)
  = Ok (Rendered.authorName r, Rendered.authorEmail r)
  ∧ RenderChangesetTemplateField "branch"
      (ChangesetTemplate.Branch (Task.Template task))
      (templateContext task result)
    = inr (Rendered.defaultBranch r).
Proof.
  unfold renderedFields.
  destruct (resolveAuthor task features (templateContext task result))
    as [[name email]|err|msg]; simpl; [|done|done].
  case_render "title"; [done|]. case_render "body"; [done|].
  case_render "message"; [done|]. case_render "branch"; [done|].
  by intros [= <-].
Qed.

(** [newSpec] fails only for want of a publication policy; otherwise it
    builds the spec of its branch and diff. *)
Lemma newSpec_cases (task : Task.t) (features : FeatureFlags.t)
    (r : Rendered.t) (branch diff : string) :
  let mk := newSpec task features (Rendered.title r) (Rendered.body r)
              (Rendered.message r) (Rendered.authorName r)
              (Rendered.authorEmail r) in
  if bool_decide (ChangesetTemplate.Published (Task.Template task) = None)
     && negb (FeatureFlags.AllowOptionalPublished features)
  then mk branch diff = Err errOptionalPublishedUnsupported
  else ∃ spec,
         mk branch diff = Ok spec
         ∧ ChangesetSpec.HeadRef spec = EnsureRefPrefix branch
         ∧ ChangesetSpec.Commits spec = [commitFor r diff]
         ∧ PublishedValue.Val (ChangesetSpec.Published spec)
           = resolvedPublication task features branch.
Proof.
  unfold newSpec, publishedFor, resolvedPublication.
  destruct (ChangesetTemplate.Published (Task.Template task)) as [policy|];
    simpl.
  - destruct (ValueWithSuffix policy _ branch) as [v|]; simpl.
    + eexists. by repeat split.
    + destruct (FeatureFlags.AllowOptionalPublished features); simpl;
        eexists; by repeat split.
  - destruct (FeatureFlags.AllowOptionalPublished features); simpl; [|done].
    eexists. by repeat split.
Qed.

(** The loop over the grouped diffs: one spec per entry, or the failure of
    the first entry — and every entry fails alike. *)
Lemma newSpecs_cases (task : Task.t) (features : FeatureFlags.t)
    (r : Rendered.t) (entries : list (string * string))
    (specs : list ChangesetSpec.t) :
  let mk := newSpec task features (Rendered.title r) (Rendered.body r)
              (Rendered.message r) (Rendered.authorName r)
              (Rendered.authorEmail r) in
  if bool_decide (ChangesetTemplate.Published (Task.Template task) = None)
     && negb (FeatureFlags.AllowOptionalPublished features)
  then entries = [] ∧ newSpecs mk entries specs = Ok specs
       ∨ entries ≠ []
         ∧ newSpecs mk entries specs = Err errOptionalPublishedUnsupported
  else ∃ new,
         newSpecs mk entries specs = Ok (specs ++ new)
         ∧ Forall2
             (λ entry spec,
                ChangesetSpec.HeadRef spec = EnsureRefPrefix entry.1
                ∧ ChangesetSpec.Commits spec = [commitFor r entry.2]
                ∧ PublishedValue.Val (ChangesetSpec.Published spec)
                  = resolvedPublication task features entry.1)
             entries new.
Proof.
  intros mk.
  destruct (bool_decide _ && negb _) eqn:Hfail.
  - destruct entries as [|[branch diff] entries]; [by left|right].
    split; [done|]. simpl.
    pose proof (newSpec_cases task features r branch diff) as Hmk.
    rewrite Hfail in Hmk. fold mk in Hmk. by rewrite Hmk.
  - revert specs. induction entries as [|[branch diff] entries IH];
      intros specs.
    + exists []. split; [by rewrite app_nil_r | constructor].
    + simpl.
      pose proof (newSpec_cases task features r branch diff) as Hmk.
      rewrite Hfail in Hmk. fold mk in Hmk.
      destruct Hmk as (spec & -> & Hspec). simpl.
      destruct (IH (specs ++ [spec])) as (new & -> & Hnew).
      exists (spec :: new). split; [by rewrite <- app_assoc|].
      by constructor.
Qed.

End Assembly.

Section AssemblyResults.
Context `{Collaborators}.

(** The entries the assembler builds specs from: the default branch with
    the unmodified diff when no group applies, the grouped diffs otherwise. *)
Lemma specsFor_entries (task : Task.t) (result : executionResult.t)
    (features : FeatureFlags.t) (r : Rendered.t)
    (specs : list ChangesetSpec.t) :
  specsFor task result features r = Ok specs →
  ∃ entries : list (string * string),
    Forall2
      (λ entry spec,
         ChangesetSpec.HeadRef spec = EnsureRefPrefix entry.1
         ∧ ChangesetSpec.Commits spec = [commitFor r entry.2]
         ∧ PublishedValue.Val (ChangesetSpec.Published spec)
           = resolvedPublication task features entry.1)
      entries specs
    ∧ match groupsForRepository (Repository.Name (Task.Repository task))
              (Task.TransformChanges task) with
      | [] => entries = [(Rendered.defaultBranch r, executionResult.Diff result)]
      | groups =>
          validateGroups (Repository.Name (Task.Repository task))
            (ChangesetTemplate.Branch (Task.Template task)) groups = None
          ∧ ∃ diffsByBranch,
              groupFileDiffs (executionResult.Diff result)
                (Rendered.defaultBranch r) groups = Ok diffsByBranch
              ∧ entries = mapRange diffsByBranch
      end.
Proof.
  unfold specsFor.
  destruct (groupsForRepository _ _) as [|g groups] eqn:Hgroups; simpl.
  - pose proof (newSpec_cases task features r (Rendered.defaultBranch r)
                  (executionResult.Diff result)) as Hmk. simpl in Hmk.
    destruct (bool_decide _ && negb _).
    + by rewrite Hmk.
    + destruct Hmk as (spec & -> & Hspec). simpl. intros [= <-].
      exists [(Rendered.defaultBranch r, executionResult.Diff result)].
      split; [|done]. constructor; [exact Hspec | constructor].
  - destruct (validateGroups _ _ _) as [err|]; [done|].
    destruct (groupFileDiffs _ _ _) as [diffsByBranch|err|msg]; [|done|done].
    pose proof (newSpecs_cases task features r (mapRange diffsByBranch) [])
      as Hloop. simpl in Hloop.
    destruct (bool_decide _ && negb _).
    + destruct Hloop as [[Hnil ->] | [_ ->]]; [|done].
      intros [= <-]. exists (mapRange diffsByBranch).
      split; [|by eauto]. rewrite Hnil. constructor.
    + destruct Hloop as (new & -> & Hnew). simpl. intros [= <-].
      exists (mapRange diffsByBranch). by eauto.
Qed.

End AssemblyResults.

Section Properties.
Context `{Collaborators}.

Lemma groupFileDiffs_Ok_parsed (completeDiff defaultBranch : string)
    (groups : list Group.t) (final : gmap string string) :
  groupFileDiffs completeDiff defaultBranch groups = Ok final →
  ∃ fileDiffs, ParseMultiFileDiff completeDiff = inr fileDiffs.
Proof.
  destruct (ParseMultiFileDiff completeDiff) as [err|fileDiffs] eqn:Hparse.
  - by rewrite (groupFileDiffs_parse_failure _ defaultBranch groups _ Hparse).
  - by exists fileDiffs.
Qed.

(** A successful grouping always has an entry for the default branch. *)
Lemma groupFileDiffs_default_present (completeDiff defaultBranch : string)
    (groups : list Group.t) (final : gmap string string) :
  groupFileDiffs completeDiff defaultBranch groups = Ok final →
  is_Some (final !! defaultBranch).
Proof.
  intros Hfinal.
  destruct (groupFileDiffs_Ok_parsed _ _ _ _ Hfinal) as [fileDiffs Hparse].
  pose proof (groupFileDiffs_lookup _ _ _ _ _ defaultBranch Hparse Hfinal)
    as Hlookup.
  rewrite decide_True in Hlookup by by left.
  destruct Hlookup as (printed & _ & ->). by eexists.
Qed.

Lemma createChangesetSpecs_Ok (task : Task.t) (result : executionResult.t)
    (features : FeatureFlags.t) (specs : list ChangesetSpec.t) :
  createChangesetSpecs task result features = Ok specs →
  ∃ r, renderedFields task result features = Ok r
       ∧ specsFor task result features r = Ok specs.
Proof.
  rewrite createChangesetSpecs_stages.
  destruct (renderedFields task result features) as [r|err|msg]; [|done|done].
  simpl. intros Hspecs. by exists r.
Qed.

(** Without a publication policy and without the capability, assembly
    fails: with the named error as soon as it gets to build a spec. *)
Lemma specsFor_without_policy (task : Task.t) (result : executionResult.t)
    (features : FeatureFlags.t) (r : Rendered.t) :
  ChangesetTemplate.Published (Task.Template task) = None →
  FeatureFlags.AllowOptionalPublished features = false →
  (∀ specs, specsFor task result features r = Ok specs → False)
  ∧ (groupsForRepository (Repository.Name (Task.Repository task))
       (Task.TransformChanges task) = []
     ∨ (validateGroups (Repository.Name (Task.Repository task))
          (ChangesetTemplate.Branch (Task.Template task))
          (groupsForRepository (Repository.Name (Task.Repository task))
             (Task.TransformChanges task)) = None
        ∧ ∃ diffsByBranch,
            groupFileDiffs (executionResult.Diff result)
              (Rendered.defaultBranch r)
              (groupsForRepository (Repository.Name (Task.Repository task))
                 (Task.TransformChanges task)) = Ok diffsByBranch) →
     specsFor task result features r = Err errOptionalPublishedUnsupported).
Proof.
  intros Hpolicy Hflag. unfold specsFor.
  destruct (groupsForRepository _ _) as [|g groups] eqn:Hgroups; simpl.
  - pose proof (newSpec_cases task features r (Rendered.defaultBranch r)
                  (executionResult.Diff result)) as Hmk. simpl in Hmk.
    rewrite Hpolicy, Hflag in Hmk. simpl in Hmk. rewrite Hmk. by split.
  - destruct (validateGroups _ _ _) as [err|].
    { split; [done|]. by intros [? | [? _]]. }
    destruct (groupFileDiffs _ _ _) as [diffsByBranch|err|msg] eqn:Hgroup.
    2,3: split; [done|]; by intros [? | [_ [? ?]]].
    pose proof (newSpecs_cases task features r (mapRange diffsByBranch) [])
      as Hloop. simpl in Hloop.
    rewrite Hpolicy, Hflag in Hloop. simpl in Hloop.
    destruct Hloop as [[Hnil _] | [_ ->]]; [|by split].
    apply groupFileDiffs_default_present in Hgroup as [printed Hdefault].
    apply mapRange_elem_of in Hdefault. rewrite Hnil in Hdefault.
    by apply elem_of_nil in Hdefault.
Qed.

(** C1: the publication value of a constructed spec.  With a policy, the
    policy is evaluated for the repository name and the branch; an absent
    result becomes exactly [false] when [AllowOptionalPublished] is off and
    stays absent when it is on.  Without a policy the value is absent when
    the flag is on, and building the spec fails with
    [errOptionalPublishedUnsupported] when it is off: no call of the
    assembler then returns specs, and it returns that very error whenever
    rendering, validation and grouping let it reach a spec.  Every spec a
    call returns carries the value resolved for its branch. *)
Theorem publication_value_resolution (task : Task.t)
    (features : FeatureFlags.t)
    (title body message authorName authorEmail branch diff : string) :
  (∀ policy,
     ChangesetTemplate.Published (Task.Template task) = Some policy →
     ∃ spec,
       newSpec task features title body message authorName authorEmail
         branch diff = Ok spec
       ∧ PublishedValue.Val (ChangesetSpec.Published spec)
         = match ValueWithSuffix policy
                   (Repository.Name (Task.Repository task)) branch with
           | Some v => Some v
           | None =>
               if FeatureFlags.AllowOptionalPublished features then None
               else Some (any_bool false)
           end)
  ∧ (ChangesetTemplate.Published (Task.Template task) = None →
     FeatureFlags.AllowOptionalPublished features = true →
     ∃ spec,
       newSpec task features title body message authorName authorEmail
         branch diff = Ok spec
       ∧ PublishedValue.Val (ChangesetSpec.Published spec) = None)
  ∧ (ChangesetTemplate.Published (Task.Template task) = None →
     FeatureFlags.AllowOptionalPublished features = false →
     newSpec task features title body message authorName authorEmail
       branch diff = Err errOptionalPublishedUnsupported
     ∧ ∀ result,
         (∀ specs, createChangesetSpecs task result features = Ok specs → False)
         ∧ ∀ r,
             renderedFields task result features = Ok r →
             groupsForRepository (Repository.Name (Task.Repository task))
               (Task.TransformChanges task) = []
             ∨ (validateGroups (Repository.Name (Task.Repository task))
                  (ChangesetTemplate.Branch (Task.Template task))
                  (groupsForRepository
                     (Repository.Name (Task.Repository task))
                     (Task.TransformChanges task)) = None
                ∧ ∃ diffsByBranch,
                    groupFileDiffs (executionResult.Diff result)
                      (Rendered.defaultBranch r)
                      (groupsForRepository
                         (Repository.Name (Task.Repository task))
                         (Task.TransformChanges task)) = Ok diffsByBranch) →
             createChangesetSpecs task result features
             = Err errOptionalPublishedUnsupported)
  ∧ (∀ result specs,
       createChangesetSpecs task result features = Ok specs →
       ∀ spec, spec ∈ specs →
         ∃ branch',
           ChangesetSpec.HeadRef spec = EnsureRefPrefix branch'
           ∧ PublishedValue.Val (ChangesetSpec.Published spec)
             = resolvedPublication task features branch').
Proof.
  split; [|split; [|split]].
  - intros policy Hpolicy. unfold newSpec, publishedFor. rewrite Hpolicy.
    destruct (ValueWithSuffix policy _ branch) as [v|]; simpl.
    + by eexists.
    + destruct (FeatureFlags.AllowOptionalPublished features); by eexists.
  - intros Hpolicy Hflag. unfold newSpec, publishedFor.
    rewrite Hpolicy, Hflag. by eexists.
  - intros Hpolicy Hflag. split.
    { unfold newSpec, publishedFor. by rewrite Hpolicy, Hflag. }
    intros result. split.
    + intros specs (r & _ & Hspecs)%createChangesetSpecs_Ok.
      by apply (specsFor_without_policy task result features r Hpolicy Hflag)
        in Hspecs.
    + intros r Hr Hreached. rewrite createChangesetSpecs_stages, Hr. simpl.
      by apply specsFor_without_policy.
  - intros result specs (r & _ & Hspecs)%createChangesetSpecs_Ok spec Hspec.
    apply specsFor_entries in Hspecs as (entries & Hentries & _).
    apply list_elem_of_lookup in Hspec as [i Hi].
    destruct (Forall2_lookup_r _ _ _ _ _ Hentries Hi)
      as ([branch' diff'] & _ & Hhead & _ & Hval).
    by exists branch'.
Qed.

Lemma lastMatchingGroup_elem_of (groups : list Group.t) (name : string)
    (g : Group.t) :
  lastMatchingGroup groups name = Some g → g ∈ groups.
Proof.
  induction groups as [|g' groups IH] using rev_ind; [done|].
  rewrite lastMatchingGroup_snoc, elem_of_app, list_elem_of_singleton.
  destruct (Contains name (Group.Directory g')); [|by left; apply IH].
  intros [= <-]. by right.
Qed.

(** A file diff that no declared directory matches belongs to the default
    branch. *)
Lemma targetBranch_unmatched (groups : list Group.t) (defaultBranch : string)
    (f : FileDiff.t) :
  (∀ g, g ∈ groups → Contains (effectiveName f) (Group.Directory g) = false) →
  targetBranch groups defaultBranch f = defaultBranch.
Proof.
  intros Hnone. unfold targetBranch.
  destruct (lastMatchingGroup groups (effectiveName f)) as [g|] eqn:Hlast;
    [|done].
  pose proof (lastMatchingGroup_matches _ _ _ Hlast) as Hmatch.
  apply lastMatchingGroup_elem_of, Hnone in Hlast. congruence.
Qed.

(** What a successful [groupFileDiffs] returns, entry by entry, in terms of
    the partition it printed. *)
Lemma groupFileDiffs_prints_partition (completeDiff defaultBranch : string)
    (groups : list Group.t) (fileDiffs : list FileDiff.t)
    (byBranch : gmap string (list FileDiff.t)) (final : gmap string string) :
  ParseMultiFileDiff completeDiff = inr fileDiffs →
  fileDiffsByBranch fileDiffs defaultBranch groups = Ok byBranch →
  groupFileDiffs completeDiff defaultBranch groups = Ok final →
  ∀ branch,
    match byBranch !! branch with
    | Some diffs => ∃ printed, PrintMultiFileDiff diffs = inr printed
                               ∧ final !! branch = Some printed
    | None => final !! branch = None
    end.
Proof.
  intros Hparse HbyBranch Hfinal branch.
  destruct (groupFileDiffs_parsed _ defaultBranch groups _ Hparse)
    as (byBranch' & HbyBranch' & Hgroup).
  rewrite HbyBranch in HbyBranch'. injection HbyBranch' as <-.
  rewrite Hgroup in Hfinal.
  destruct (printBranches_lookup _ _ _ branch (mapRange_NoDup byBranch) Hfinal)
    as [Hin Hout].
  destruct (byBranch !! branch) as [diffs|] eqn:Hbranch.
  - by apply Hin, mapRange_elem_of.
  - rewrite Hout, lookup_empty; [done|].
    intros [[b l] [Hb Hbl]]%list_elem_of_fmap. simpl in Hb. subst b.
    apply mapRange_elem_of in Hbl. congruence.
Qed.

(** C2: for a combined diff that parses, and every group list (a validated
    one in particular), the partition [groupFileDiffs] prints holds every
    parsed file diff exactly once: the lists of all branches taken together
    are a permutation of the parsed file diffs, each file diff is in the
    list of its target branch and in no list of another branch, and a file
    diff that no directory matches is in the default branch's list.  A
    successful result has exactly the branches of the partition, each
    mapped to the print of its list. *)
Theorem groupFileDiffs_assigns_each_file_once
    (repoName completeDiff defaultBranch : string) (groups : list Group.t)
    (fileDiffs : list FileDiff.t) :
  ParseMultiFileDiff completeDiff = inr fileDiffs →
  validateGroups repoName defaultBranch groups = None →
  ∃ byBranch,
    fileDiffsByBranch fileDiffs defaultBranch groups = Ok byBranch
    ∧ groupFileDiffs completeDiff defaultBranch groups
      = printBranches (mapRange byBranch) ∅
    ∧ mjoin (map_to_list byBranch).*2 ≡ₚ fileDiffs
    ∧ (∀ f, f ∈ fileDiffs →
         ∃ diffs, byBranch !! targetBranch groups defaultBranch f = Some diffs
                  ∧ f ∈ diffs)
    ∧ (∀ branch diffs f,
         byBranch !! branch = Some diffs → f ∈ diffs →
         f ∈ fileDiffs ∧ targetBranch groups defaultBranch f = branch)
    ∧ (∀ f, f ∈ fileDiffs →
         (∀ g, g ∈ groups →
            Contains (effectiveName f) (Group.Directory g) = false) →
         ∃ diffs, byBranch !! defaultBranch = Some diffs ∧ f ∈ diffs)
    ∧ (∀ final,
         groupFileDiffs completeDiff defaultBranch groups = Ok final →
         ∀ branch,
           match byBranch !! branch with
           | Some diffs => ∃ printed, PrintMultiFileDiff diffs = inr printed
                                      ∧ final !! branch = Some printed
           | None => final !! branch = None
           end).
Proof.
  intros Hparse _.
  destruct (groupFileDiffs_parsed _ defaultBranch groups _ Hparse)
    as (byBranch & HbyBranch & Hgroup).
  destruct (fileDiffsByBranch_lookup fileDiffs defaultBranch groups)
    as (byBranch' & HbyBranch' & Hlookup).
  rewrite HbyBranch in HbyBranch'. injection HbyBranch' as <-.
  assert (∀ f, f ∈ fileDiffs →
            ∃ diffs, byBranch !! targetBranch groups defaultBranch f = Some diffs
                     ∧ f ∈ diffs) as Hkept.
  { intros f Hf.
    assert (f ∈ assigned groups defaultBranch
                  (targetBranch groups defaultBranch f) fileDiffs) as Hassigned
      by by apply assigned_elem_of.
    rewrite Hlookup. case_decide; [by eexists|].
    destruct (assigned groups defaultBranch _ fileDiffs) eqn:Hl.
    - by apply elem_of_nil in Hassigned.
    - by eexists. }
  exists byBranch.
  split; [done|]. split; [done|].
  split; [by apply fileDiffsByBranch_values in HbyBranch|].
  split; [done|]. split; [|split].
  - intros branch diffs f Hdiffs Hf. rewrite Hlookup in Hdiffs.
    apply (assigned_elem_of groups defaultBranch branch).
    case_decide; [by injection Hdiffs as <-|].
    destruct (assigned groups defaultBranch branch fileDiffs); [done|].
    by injection Hdiffs as <-.
  - intros f Hf Hnone. rewrite <- (targetBranch_unmatched groups defaultBranch f)
      by done. by apply Hkept.
  - intros final Hfinal.
    by apply (groupFileDiffs_prints_partition _ _ _ _ _ _ Hparse HbyBranch).
Qed.

(** C3: the effective path of a file diff is its new path, or its
    original path when the new path is [/dev/null]; a directory matches
    when it occurs anywhere in that path.  Of the groups whose directory
    matches, the one declared last decides, whatever matched before it:
    when its directory is not empty the file diff is filed under its
    branch.  When its directory is empty the file diff is filed under the
    default branch, as if no directory had matched, and under the branch
    of that group there is no such file diff. *)
Theorem last_match_decides_unless_empty (pre post : list Group.t)
    (g : Group.t) (defaultBranch : string)
    (byBranch : gmap string (list FileDiff.t)) (f : FileDiff.t) :
  Contains (effectiveName f) (Group.Directory g) = true →
  (∀ g', g' ∈ post →
     Contains (effectiveName f) (Group.Directory g') = false) →
  effectiveName f
  = (if String.eqb (FileDiff.NewName f) "/dev/null"
     then FileDiff.OrigName f else FileDiff.NewName f)
  ∧ (∀ d, Contains (effectiveName f) d = true
          ↔ ∃ before after, effectiveName f = before +:+ d +:+ after)
  ∧ lastMatchingDir (snd (lookupTables (pre ++ g :: post))) (effectiveName f)
    = Group.Directory g
  ∧ assignFileDiff (fst (lookupTables (pre ++ g :: post)))
      (snd (lookupTables (pre ++ g :: post))) defaultBranch byBranch f
    = Ok (appendTo byBranch
            (if String.eqb (Group.Directory g) "" then defaultBranch
             else Group.Branch g) f)
  ∧ (∀ fileDiffs, f ∈ fileDiffs →
       ∃ partition diffs,
         fileDiffsByBranch fileDiffs defaultBranch (pre ++ g :: post)
         = Ok partition
         ∧ partition !! (if String.eqb (Group.Directory g) ""
                         then defaultBranch else Group.Branch g)
           = Some diffs
         ∧ f ∈ diffs
         ∧ (Group.Directory g = "" →
            Group.Branch g ≠ defaultBranch →
            ∀ diffs', partition !! Group.Branch g = Some diffs' →
                      f ∉ diffs')).
Proof.
  intros Hg Hpost.
  pose proof (lastMatchingGroup_split pre post g _ Hg Hpost) as Hlast.
  assert (targetBranch (pre ++ g :: post) defaultBranch f
          = if String.eqb (Group.Directory g) "" then defaultBranch
            else Group.Branch g) as Htarget.
  { unfold targetBranch. by rewrite Hlast. }
  split; [done|]. split; [intros d; apply Contains_spec|].
  split; [|split].
  - by rewrite lookupTables_dirs, lastMatchingDir_group, Hlast.
  - by rewrite assignFileDiff_target, Htarget.
  - intros fileDiffs Hf.
    destruct (fileDiffsByBranch_lookup fileDiffs defaultBranch
                (pre ++ g :: post)) as (partition & Hpartition & Hlookup).
    set (branch := if String.eqb (Group.Directory g) "" then defaultBranch
                   else Group.Branch g) in *.
    assert (f ∈ assigned (pre ++ g :: post) defaultBranch branch fileDiffs)
      as Hassigned by by apply assigned_elem_of.
    exists partition.
    assert (∃ diffs, partition !! branch = Some diffs ∧ f ∈ diffs)
      as (diffs & Hdiffs & Hin).
    { rewrite (Hlookup branch). case_decide; [by eexists|].
      destruct (assigned (pre ++ g :: post) defaultBranch branch fileDiffs)
        eqn:Hl.
      - by apply elem_of_nil in Hassigned.
      - by eexists. }
    exists diffs. split; [done|]. split; [done|]. split; [done|].
    intros Hempty Hother diffs' Hdiffs' Hin'.
    assert (f ∈ assigned (pre ++ g :: post) defaultBranch (Group.Branch g)
                  fileDiffs) as Hwrong.
    { rewrite (Hlookup (Group.Branch g)) in Hdiffs'.
      case_decide; [done|].
      destruct (assigned (pre ++ g :: post) defaultBranch (Group.Branch g)
                  fileDiffs); [done|].
      by injection Hdiffs' as <-. }
    apply assigned_elem_of in Hwrong as [_ Hwrong].
    rewrite Htarget in Hwrong. subst branch.
    rewrite Hempty in Hwrong. simpl in Hwrong. congruence.
Qed.

(** When every file diff has the same target, the loop fills that one
    list. *)
Lemma foldl_appendTo_single (target : FileDiff.t → string) (branch : string)
    (fileDiffs acc : list FileDiff.t) :
  (∀ f, target f = branch) →
  foldl (λ m f, appendTo m (target f) f) {[ branch := acc ]} fileDiffs
  = {[ branch := acc ++ fileDiffs ]}.
Proof.
  intros Htarget. revert acc.
  induction fileDiffs as [|f fileDiffs IH]; intros acc; simpl.
  - by rewrite app_nil_r.
  - rewrite Htarget. unfold appendTo at 2.
    rewrite lookup_singleton_eq. simpl.
    rewrite insert_singleton_eq, IH. by rewrite <- app_assoc.
Qed.

(** C9: when the last declared group has the empty directory, the loop
    over the directories ends on the empty string for every file diff, the
    file diff is filed under the default branch, and so the partition has
    the default branch alone, holding all file diffs: no group's branch
    gets an entry, not even for files an earlier directory matched. *)
Theorem trailing_empty_directory_defaults_everything (groups : list Group.t)
    (g : Group.t) (completeDiff defaultBranch : string)
    (fileDiffs : list FileDiff.t) :
  Group.Directory g = "" →
  (∀ f, lastMatchingDir (snd (lookupTables (groups ++ [g]))) (effectiveName f)
        = "")
  ∧ (∀ f byBranch,
       assignFileDiff (fst (lookupTables (groups ++ [g])))
         (snd (lookupTables (groups ++ [g]))) defaultBranch byBranch f
       = Ok (appendTo byBranch defaultBranch f))
  ∧ (∀ f, targetBranch (groups ++ [g]) defaultBranch f = defaultBranch)
  ∧ fileDiffsByBranch fileDiffs defaultBranch (groups ++ [g])
    = Ok {[ defaultBranch := fileDiffs ]}
  ∧ (ParseMultiFileDiff completeDiff = inr fileDiffs →
     ∀ final,
       groupFileDiffs completeDiff defaultBranch (groups ++ [g]) = Ok final →
       (∃ printed, PrintMultiFileDiff fileDiffs = inr printed
                   ∧ final !! defaultBranch = Some printed)
       ∧ ∀ branch, branch ≠ defaultBranch → final !! branch = None).
Proof.
  intros Hempty.
  assert (∀ f, targetBranch (groups ++ [g]) defaultBranch f = defaultBranch)
    as Htarget.
  { intros f. unfold targetBranch.
    rewrite lastMatchingGroup_snoc, Hempty, Contains_empty, Hempty. done. }
  assert (fileDiffsByBranch fileDiffs defaultBranch (groups ++ [g])
          = Ok {[ defaultBranch := fileDiffs ]}) as Hpartition.
  { unfold fileDiffsByBranch. rewrite assignFileDiffs_foldl, insert_empty.
    by rewrite foldl_appendTo_single. }
  split; [|split; [|split; [done|split; [done|]]]].
  - intros f. rewrite lookupTables_snoc. simpl.
    by rewrite lastMatchingDir_snoc, Hempty, Contains_empty.
  - intros f byBranch. by rewrite assignFileDiff_target, Htarget.
  - intros Hparse final Hfinal.
    pose proof (groupFileDiffs_prints_partition _ _ _ _ _ _ Hparse Hpartition
                  Hfinal) as Hprinted.
    split.
    + specialize (Hprinted defaultBranch).
      by rewrite lookup_singleton_eq in Hprinted.
    + intros branch Hne. specialize (Hprinted branch).
      by rewrite lookup_singleton_ne in Hprinted.
Qed.

(** C10: the directory the loop selects, when it is not the empty string,
    is a key of the lookup built from the same groups; so the loop body
    never takes its panic branch, and [groupFileDiffs] returns a result or
    an error for every diff and every group list. *)
Theorem groupFileDiffs_never_panics (completeDiff defaultBranch : string)
    (groups : list Group.t) :
  (∀ name,
     lastMatchingDir (snd (lookupTables groups)) name ≠ "" →
     is_Some (fst (lookupTables groups)
                !! lastMatchingDir (snd (lookupTables groups)) name))
  ∧ (∀ byBranch f,
       ∃ byBranch',
         assignFileDiff (fst (lookupTables groups)) (snd (lookupTables groups))
           defaultBranch byBranch f = Ok byBranch')
  ∧ (∀ fileDiffs,
       ∃ byBranch, fileDiffsByBranch fileDiffs defaultBranch groups = Ok byBranch)
  ∧ ((∃ final, groupFileDiffs completeDiff defaultBranch groups = Ok final)
     ∨ (∃ err, groupFileDiffs completeDiff defaultBranch groups = Err err))
  ∧ (∀ msg, groupFileDiffs completeDiff defaultBranch groups = Panic msg → False).
Proof.
  split; [|split; [|split; [|split]]].
  - intros name Hnonempty.
    destruct (lastMatchingDir_cases (snd (lookupTables groups)) name)
      as [[Hin _] | [Hnone _]]; [|done].
    by apply lookupTables_is_Some.
  - intros byBranch f. eexists. apply assignFileDiff_target.
  - intros fileDiffs.
    destruct (fileDiffsByBranch_lookup fileDiffs defaultBranch groups)
      as (byBranch & HbyBranch & _).
    by exists byBranch.
  - apply groupFileDiffs_outcome.
  - intros msg Hpanic.
    destruct (groupFileDiffs_outcome completeDiff defaultBranch groups)
      as [[final Hfinal] | [err Herr]]; congruence.
Qed.

Lemma assigned_sublist (groups : list Group.t) (defaultBranch branch : string)
    (fileDiffs : list FileDiff.t) :
  assigned groups defaultBranch branch fileDiffs `sublist_of` fileDiffs.
Proof.
  unfold assigned. induction fileDiffs as [|f fileDiffs IH]; simpl.
  - constructor.
  - destruct (String.eqb _ branch); by constructor.
Qed.

Lemma fileDiffsByBranch_Some (fileDiffs : list FileDiff.t)
    (defaultBranch : string) (groups : list Group.t)
    (byBranch : gmap string (list FileDiff.t)) (branch : string)
    (diffs : list FileDiff.t) :
  fileDiffsByBranch fileDiffs defaultBranch groups = Ok byBranch →
  byBranch !! branch = Some diffs →
  diffs = assigned groups defaultBranch branch fileDiffs.
Proof.
  intros HbyBranch Hdiffs.
  destruct (fileDiffsByBranch_lookup fileDiffs defaultBranch groups)
    as (byBranch' & HbyBranch' & Hlookup).
  rewrite HbyBranch in HbyBranch'. injection HbyBranch' as <-.
  rewrite Hlookup in Hdiffs. case_decide; [by injection Hdiffs|].
  destruct (assigned groups defaultBranch branch fileDiffs); [done|].
  by injection Hdiffs.
Qed.

(** C6: in the mapping [groupFileDiffs] returns, the default branch is
    always present, mapped to the print of the empty list when no file
    diff belongs to it; the branch of a group to which no file diff
    belongs is absent, for every group whose branch is not the default
    branch and so for every group of a validated list; and every present
    branch maps to the print of its file diffs in their input order.
    [groupFileDiffs] does return a mapping when the printer accepts the
    list of every branch. *)
Theorem default_branch_present_empty_groups_absent
    (completeDiff defaultBranch : string) (groups : list Group.t)
    (fileDiffs : list FileDiff.t) :
  ParseMultiFileDiff completeDiff = inr fileDiffs →
  ((∀ branch,
      ∃ printed,
        PrintMultiFileDiff (assigned groups defaultBranch branch fileDiffs)
        = inr printed) →
   ∃ final, groupFileDiffs completeDiff defaultBranch groups = Ok final)
  ∧ ∀ final,
      groupFileDiffs completeDiff defaultBranch groups = Ok final →
      (∃ printed,
         PrintMultiFileDiff
           (assigned groups defaultBranch defaultBranch fileDiffs)
         = inr printed
         ∧ final !! defaultBranch = Some printed)
      ∧ ((∀ f, f ∈ fileDiffs →
            targetBranch groups defaultBranch f ≠ defaultBranch) →
         ∃ printed, PrintMultiFileDiff [] = inr printed
                    ∧ final !! defaultBranch = Some printed)
      ∧ (∀ g, g ∈ groups → Group.Branch g ≠ defaultBranch →
           (∀ f, f ∈ fileDiffs →
              targetBranch groups defaultBranch f ≠ Group.Branch g) →
           final !! Group.Branch g = None)
      ∧ (∀ repoName,
           validateGroups repoName defaultBranch groups = None →
           ∀ g, g ∈ groups →
             (∀ f, f ∈ fileDiffs →
                targetBranch groups defaultBranch f ≠ Group.Branch g) →
             final !! Group.Branch g = None)
      ∧ (∀ branch printed,
           final !! branch = Some printed →
           PrintMultiFileDiff (assigned groups defaultBranch branch fileDiffs)
           = inr printed
           ∧ assigned groups defaultBranch branch fileDiffs
             `sublist_of` fileDiffs).
Proof.
  intros Hparse. split.
  - intros Hprints.
    destruct (groupFileDiffs_parsed _ defaultBranch groups _ Hparse)
      as (byBranch & HbyBranch & ->).
    destruct (printBranches_cases (mapRange byBranch) ∅)
      as [(final & Hfinal & _) | (b & l & err & Hin & Herr & _)];
      [by exists final|].
    apply mapRange_elem_of in Hin.
    rewrite (fileDiffsByBranch_Some _ _ _ _ _ _ HbyBranch Hin) in Herr.
    destruct (Hprints b) as [printed Hprinted]. congruence.
  - intros final Hfinal.
    assert (∃ printed,
              PrintMultiFileDiff
                (assigned groups defaultBranch defaultBranch fileDiffs)
              = inr printed
              ∧ final !! defaultBranch = Some printed) as Hdefault.
    { pose proof (groupFileDiffs_lookup _ _ _ _ _ defaultBranch Hparse Hfinal)
        as Hlookup.
      by rewrite decide_True in Hlookup by by left. }
    assert (∀ g, Group.Branch g ≠ defaultBranch →
              (∀ f, f ∈ fileDiffs →
                 targetBranch groups defaultBranch f ≠ Group.Branch g) →
              final !! Group.Branch g = None) as Habsent.
    { intros g Hne Hnone%assigned_nil.
      pose proof (groupFileDiffs_lookup _ _ _ _ _ (Group.Branch g) Hparse Hfinal)
        as Hlookup.
      rewrite decide_False in Hlookup; [done|].
      intros [?|?]; congruence. }
    split; [done|]. split; [|split; [|split]].
    + intros Hnone%assigned_nil. by rewrite Hnone in Hdefault.
    + intros g _. apply Habsent.
    + intros repoName Hvalid g Hg. apply Habsent.
      apply validateGroups_from_None in Hvalid as [_ Hall].
      rewrite Forall_forall in Hall. by apply Hall in Hg as [_ Hne].
    + intros branch printed Hprinted. split; [|apply assigned_sublist].
      pose proof (groupFileDiffs_lookup _ _ _ _ _ branch Hparse Hfinal)
        as Hlookup.
      case_decide; [|congruence].
      destruct Hlookup as (printed' & Hprint & Hfinal'). congruence.
Qed.




(** C5: the groups [groupsForRepository] selects for a task are its
    applicable group list: the global groups and those filtered on its
    repository, in declaration order, and none when no grouping is
    configured.  When that list is empty, a call that returns specs
    returns exactly one, on the rendered default branch and with the
    execution result's diff as its only commit's diff; and the call does
    return it once the fields render and a publication value can be
    given. *)
Theorem no_applicable_group_single_default_spec (task : Task.t)
    (result : executionResult.t) (features : FeatureFlags.t) :
  groupsForRepository (Repository.Name (Task.Repository task))
    (Task.TransformChanges task)
  = applicableGroupList (Repository.Name (Task.Repository task))
      (Task.TransformChanges task)
  ∧ (applicableGroupList (Repository.Name (Task.Repository task))
       (Task.TransformChanges task) = [] →
     (∀ r,
        renderedFields task result features = Ok r →
        is_Some (ChangesetTemplate.Published (Task.Template task))
        ∨ FeatureFlags.AllowOptionalPublished features = true →
        ∃ spec,
          createChangesetSpecs task result features = Ok [spec]
          ∧ ChangesetSpec.HeadRef spec
            = EnsureRefPrefix (Rendered.defaultBranch r)
          ∧ ChangesetSpec.Commits spec
            = [commitFor r (executionResult.Diff result)])
     ∧ (∀ specs,
          createChangesetSpecs task result features = Ok specs →
          ∃ defaultBranch spec c,
            RenderChangesetTemplateField "branch"
              (ChangesetTemplate.Branch (Task.Template task))
              (templateContext task result) = inr defaultBranch
            ∧ specs = [spec]
            ∧ ChangesetSpec.HeadRef spec = EnsureRefPrefix defaultBranch
            ∧ ChangesetSpec.Commits spec = [c]
            ∧ GitCommitDescription.Diff c = executionResult.Diff result)).
Proof.
  split; [apply groupsForRepository_applicable|].
  intros Hgroups.
  change (applicableGroupList (Repository.Name (Task.Repository task))
            (Task.TransformChanges task))
    with (match Task.TransformChanges task with
          | None => []
          | Some tc =>
              applicableGroups (Repository.Name (Task.Repository task))
                (TransformChanges.Group tc)
          end) in Hgroups.
  rewrite <- groupsForRepository_applicable in Hgroups.
  split.
  - intros r Hr Hpublished.
    rewrite createChangesetSpecs_stages, Hr. simpl.
    unfold specsFor. rewrite Hgroups. simpl.
    pose proof (newSpec_cases task features r (Rendered.defaultBranch r)
                  (executionResult.Diff result)) as Hmk. simpl in Hmk.
    destruct (bool_decide _ && negb _) eqn:Hfail.
    + apply andb_true_iff in Hfail as [Hnone%bool_decide_eq_true Hflag].
      destruct Hpublished as [[policy Hpolicy] | Hallowed].
      * congruence.
      * by rewrite Hallowed in Hflag.
    + destruct Hmk as (spec & -> & Hhead & Hcommits & _). by exists spec.
  - intros specs (r & Hr & Hspecs)%createChangesetSpecs_Ok.
    apply specsFor_entries in Hspecs as (entries & Hentries & Hshape).
    rewrite Hgroups in Hshape. subst entries.
    apply Forall2_cons_inv_l in Hentries
      as (spec & rest & (Hhead & Hcommits & _) & Hrest & ->).
    apply Forall2_nil_inv_l in Hrest as ->.
    apply renderedFields_Ok in Hr as [_ Hbranch].
    exists (Rendered.defaultBranch r), spec,
      (commitFor r (executionResult.Diff result)).
    by repeat split.
Qed.

End Properties.

(** * The definitions run on examples *)

(** The panic of the loop body is real: it is taken when the directories
    and the lookup disagree, which the tables of [groupFileDiffs] never do. *)
Example assignFileDiff_panics_on_foreign_tables :
  assignFileDiff ∅ ["backend/"] "main" ∅ Sample.backend_a
  = Panic "this should not happen: backend/".
Proof. reflexivity. Qed.

(** The end-to-end example of the spec: one group on [backend/]. *)
Example groupFileDiffs_backend_frontend :
  fileDiffsByBranch [Sample.backend_a; Sample.frontend_b] "main"
    [Sample.group "backend/" "grouped-backend"]
  = Ok (<["grouped-backend" := [Sample.backend_a]]>
          {[ "main" := [Sample.frontend_b] ]}).
Proof. vm_compute. reflexivity. Qed.

(** A deleted file is matched by its original path. *)
Example deleted_file_uses_original_name :
  effectiveName Sample.deleted_c = "a/backend/c.go"
  ∧ targetBranch [Sample.group "backend/" "grouped-backend"] "main"
      Sample.deleted_c = "grouped-backend".
Proof. split; reflexivity. Qed.

(** Two groups on one branch are refused, whatever the diff. *)
Example validateGroups_same_branch :
  validateGroups "repo" "main"
    [Sample.group "a/" "same"; Sample.group "b/" "same"]
  = Some (errDuplicateBranch "repo" "same").
Proof. vm_compute. reflexivity. Qed.

(** The whole partitioner on a group on [backend/] followed by a group on
    the empty directory: the empty directory is contained in the path, so
    it is the matching directory declared last; yet the file diff is
    filed under the default branch and that group's branch gets no
    entry. *)
Lemma last_match_on_empty_directory_is_dropped :
  Contains (effectiveName Sample.backend_a)
    (Group.Directory (Sample.group "" "catch-all")) = true
  ∧ fileDiffsByBranch [Sample.backend_a] "main"
      [Sample.group "backend/" "grouped-backend"; Sample.group "" "catch-all"]
    = Ok {[ "main" := [Sample.backend_a] ]}
  ∧ ({[ "main" := [Sample.backend_a] ]} : gmap string (list FileDiff.t))
      !! "catch-all" = None.
Proof. split; [reflexivity|]. split; vm_compute; reflexivity. Qed.

(** A diff with a broken hunk header: [groupFileDiffs] hands on the
    parser's error as it is. *)
Example parse_failure_is_handed_on :
  @groupFileDiffs _ Sample.collaborators Sample.malformed "main"
    [Sample.group "backend/" "grouped-backend"]
  = Err (errors_New "line 3, char 44: bad hunk header: @@ -1 +1").
Proof. vm_compute. reflexivity. Qed.

(** A text without a file header is no failure: it holds no file diff,
    and the default branch gets the empty print. *)
Example text_without_file_header_is_an_empty_diff :
  @groupFileDiffs _ Sample.collaborators "garbage" "main"
    [Sample.group "backend/" "grouped-backend"]
  = Ok {[ "main" := "" ]}.
Proof. vm_compute. reflexivity. Qed.

(** Over a printer that fails, the report carries both names. *)
Example print_failure_is_wrapped_twice :
  @createChangesetSpecs _ Sample.unprintable GroupedSample.task
    (Sample.result "two files") (Sample.flags true true)
  = Err (errors_Wrap
           (errors_Wrap (errors_New "short write")
              "printing multi file diff failed")
           "grouping diffs failed").
Proof. vm_compute. reflexivity. Qed.

(** * The theorems applied to concrete inputs *)

(** C1 on a policy that yields no value, with optional publication off:
    the spec says [false]. *)
Lemma publication_value_resolution_witness :
  ∃ spec,
    @newSpec _ Sample.collaborators (Sample.task None (Some None) None)
      (Sample.flags false true) "Update" "Body" "msg" "" "" "main" "diff"
    = Ok spec
    ∧ PublishedValue.Val (ChangesetSpec.Published spec)
      = Some (any_bool false).
Proof.
  destruct (@publication_value_resolution _ Sample.collaborators
              (Sample.task None (Some None) None) (Sample.flags false true)
              "Update" "Body" "msg" "" "" "main" "diff") as [Hpolicy _].
  destruct (Hpolicy None eq_refl) as (spec & Hspec & Hval).
  exists spec. split; [exact Hspec | exact Hval].
Defined.

(** C2 on the two-file diff and the group on [backend/]. *)
Lemma groupFileDiffs_assigns_each_file_once_witness :
  ∃ byBranch,
    fileDiffsByBranch [Sample.backend_a; Sample.frontend_b] "main"
      [Sample.group "backend/" "grouped-backend"] = Ok byBranch
    ∧ mjoin (map_to_list byBranch).*2
      ≡ₚ [Sample.backend_a; Sample.frontend_b].
Proof.
  destruct (@groupFileDiffs_assigns_each_file_once _ Sample.collaborators
              "repo" "two files" "main"
              [Sample.group "backend/" "grouped-backend"]
              [Sample.backend_a; Sample.frontend_b])
    as (byBranch & HbyBranch & _ & Hperm & _).
  - reflexivity.
  - vm_compute. reflexivity.
  - exists byBranch. split; [exact HbyBranch | exact Hperm].
Defined.

(** C3 on a file under [backend/], a group on [backend/] and, declared
    after it, a group on the empty directory: both directories occur in
    the path and the list is a valid one, the empty directory is the
    match declared last, and the file diff is filed under [main] and not
    under [catch-all]; and on groups on [backend/], [b/] and [docs/], of
    which the first two match: the file diff is filed under the branch of
    the group on [b/]. *)
Lemma last_match_decides_unless_empty_witness :
  Contains (effectiveName Sample.backend_a) "backend/" = true
  ∧ Contains (effectiveName Sample.backend_a) "" = true
  ∧ validateGroups "repo" "main"
      [Sample.group "backend/" "grouped-backend"; Sample.group "" "catch-all"]
    = None
  ∧ assignFileDiff
      (fst (lookupTables [Sample.group "backend/" "grouped-backend";
                          Sample.group "" "catch-all"]))
      (snd (lookupTables [Sample.group "backend/" "grouped-backend";
                          Sample.group "" "catch-all"]))
      "main" ∅ Sample.backend_a
    = Ok (appendTo ∅ "main" Sample.backend_a)
  ∧ Contains (effectiveName Sample.backend_a) "b/" = true
  ∧ assignFileDiff
      (fst (lookupTables [Sample.group "backend/" "specific";
                          Sample.group "b/" "broad";
                          Sample.group "docs/" "docs"]))
      (snd (lookupTables [Sample.group "backend/" "specific";
                          Sample.group "b/" "broad";
                          Sample.group "docs/" "docs"]))
      "main" ∅ Sample.backend_a
    = Ok (appendTo ∅ "broad" Sample.backend_a).
Proof.
  split; [reflexivity|]. split; [reflexivity|]. split; [reflexivity|].
  split; [|split; [reflexivity|]].
  - destruct (last_match_decides_unless_empty
                [Sample.group "backend/" "grouped-backend"] []
                (Sample.group "" "catch-all") "main" ∅ Sample.backend_a)
      as (_ & _ & _ & Hfiled & _).
    + reflexivity.
    + intros g' Hg'. by apply elem_of_nil in Hg'.
    + exact Hfiled.
  - destruct (last_match_decides_unless_empty
                [Sample.group "backend/" "specific"]
                [Sample.group "docs/" "docs"]
                (Sample.group "b/" "broad") "main" ∅ Sample.backend_a)
      as (_ & _ & _ & Hfiled & _).
    + reflexivity.
    + intros g' Hg'. apply list_elem_of_singleton in Hg'. subst g'.
      reflexivity.
    + exact Hfiled.
Defined.

(** C4 on three groups, the third repeating the branch of the first. *)
Lemma validateGroups_fails_iff_first_violation_witness :
  is_Some (validateGroups "repo" "main"
             [Sample.group "a/" "x"; Sample.group "b/" "y";
              Sample.group "c/" "x"]).
Proof.
  apply (validateGroups_fails_iff_first_violation "repo" "main"
           [Sample.group "a/" "x"; Sample.group "b/" "y";
            Sample.group "c/" "x"]).
  left. exists 0, 2, (Sample.group "a/" "x"), (Sample.group "c/" "x").
  repeat split. lia.
Defined.

(** C5 on a task whose only group is declared for another repository:
    a group is declared, none is applicable, and the one spec carries the
    diff as it came. *)
Lemma no_applicable_group_single_default_spec_witness :
  (∃ tc, Task.TransformChanges GroupedSample.elsewhere = Some tc
         ∧ List.length (TransformChanges.Group tc) = 1)
  ∧ groupsForRepository
      (Repository.Name (Task.Repository GroupedSample.elsewhere))
      (Task.TransformChanges GroupedSample.elsewhere) = []
  ∧ ∃ spec,
      @createChangesetSpecs _ Sample.collaborators GroupedSample.elsewhere
        (Sample.result "two files") (Sample.flags true true) = Ok [spec]
      ∧ ChangesetSpec.HeadRef spec = "refs/heads/main"
      ∧ ChangesetSpec.Commits spec
        = [ {| GitCommitDescription.Message := "msg";
               GitCommitDescription.AuthorName := "Sourcegraph";
               GitCommitDescription.AuthorEmail :=
                 "batch-changes@sourcegraph.com";
               GitCommitDescription.Diff := "two files" |} ].
Proof.
  destruct (@no_applicable_group_single_default_spec _ Sample.collaborators
              GroupedSample.elsewhere (Sample.result "two files")
              (Sample.flags true true)) as [Hselected Hnone].
  split; [eexists; split; reflexivity|].
  split; [exact Hselected|].
  destruct (Hnone eq_refl) as [Hreturns _].
  apply (Hreturns GroupedSample.rendered).
  - reflexivity.
  - right. reflexivity.
Defined.

(** The two-file diff grouped by a directory that matches nothing. *)
Lemma sample_docs_grouping :
  @groupFileDiffs _ Sample.collaborators "two files" "main"
    [Sample.group "docs/" "docs"]
  = Ok {[ "main" := "--- a/backend/a.go +++ b/backend/a.go @@ -1 +1 @@ -old +new;--- a/frontend/b.ts +++ b/frontend/b.ts @@ -2 +2 @@ -x +y;" ]}.
Proof. vm_compute. reflexivity. Qed.

(** C6 on that grouping: the default branch is present, the branch of
    the group is not. *)
Lemma default_branch_present_empty_groups_absent_witness :
  ∃ final,
    @groupFileDiffs _ Sample.collaborators "two files" "main"
      [Sample.group "docs/" "docs"] = Ok final
    ∧ is_Some (final !! "main")
    ∧ final !! "docs" = None.
Proof.
  destruct (@default_branch_present_empty_groups_absent _ Sample.collaborators
              "two files" "main" [Sample.group "docs/" "docs"]
              [Sample.backend_a; Sample.frontend_b] eq_refl)
    as [_ Hfinal].
  eexists. split; [exact sample_docs_grouping|].
  destruct (Hfinal _ sample_docs_grouping)
    as ((printed & _ & Hmain) & _ & Habsent & _).
  split.
  - exists printed. exact Hmain.
  - apply (Habsent (Sample.group "docs/" "docs")).
    + left.
    + discriminate.
    + intros f Hf. repeat (apply elem_of_cons in Hf as [-> | Hf];
                           [discriminate|]).
      by apply elem_of_nil in Hf.
Defined.





(** C9 on a group on [backend/] followed by a group on the empty
    directory. *)
Lemma trailing_empty_directory_defaults_everything_witness :
  fileDiffsByBranch [Sample.backend_a; Sample.frontend_b] "main"
    ([Sample.group "backend/" "grouped-backend"] ++ [Sample.group "" "catch-all"])
  = Ok {[ "main" := [Sample.backend_a; Sample.frontend_b] ]}.
Proof.
  apply (@trailing_empty_directory_defaults_everything _ Sample.collaborators
           [Sample.group "backend/" "grouped-backend"]
           (Sample.group "" "catch-all") "two files" "main"
           [Sample.backend_a; Sample.frontend_b]).
  reflexivity.
Defined.

(** C10 on groups with a repeated directory and an empty one. *)
Lemma groupFileDiffs_never_panics_witness :
  ∃ byBranch,
    fileDiffsByBranch [Sample.backend_a; Sample.frontend_b; Sample.deleted_c]
      "main"
      [Sample.group "backend/" "grouped-backend"; Sample.group "" "catch-all";
       Sample.group "backend/" "again"] = Ok byBranch.
Proof.
  apply (@groupFileDiffs_never_panics _ Sample.collaborators "three files"
           "main"
           [Sample.group "backend/" "grouped-backend";
            Sample.group "" "catch-all"; Sample.group "backend/" "again"]).
Defined.

(** * Further properties of group validation and selection *)

(** X1: whether [validateGroups] accepts a list depends neither on the
    declaration order nor on the repository name, and dropping groups from
    an accepted list leaves it accepted. *)
Theorem validateGroups_accepts_sub_multisets
    (repoName repoName' defaultBranch : string)
    (groups groups' : list Group.t) :
  groups' ⊆+ groups →
  validateGroups repoName defaultBranch groups = None →
  validateGroups repoName' defaultBranch groups' = None.
Proof.
  intros Hsub. unfold validateGroups. rewrite !validateGroups_from_None.
  intros [Hnodup Hall]. split.
  - assert (Group.Branch <$> groups' ⊆+ Group.Branch <$> groups) as Hbranches
      by by apply fmap_submseteq.
    apply submseteq_sublist_r in Hbranches as (l & -> & Hl).
    by apply (sublist_NoDup _ _ Hnodup).
  - rewrite Forall_forall in *. intros g Hg. apply Hall.
    by eapply elem_of_submseteq.
Qed.

(** X2: [groupsForRepository] keeps the declared order, selects a group
    exactly when its repository filter is empty or names the repository,
    and selecting again from its result changes nothing. *)
Theorem groupsForRepository_selects_in_order (repoName : string)
    (declared : list Group.t) :
  groupsForRepository repoName (Some {| TransformChanges.Group := declared |})
    `sublist_of` declared
  ∧ (∀ g,
       g ∈ groupsForRepository repoName
             (Some {| TransformChanges.Group := declared |})
       ↔ g ∈ declared
         ∧ (Group.Repository g = "" ∨ Group.Repository g = repoName))
  ∧ groupsForRepository repoName
      (Some {| TransformChanges.Group :=
                 groupsForRepository repoName
                   (Some {| TransformChanges.Group := declared |}) |})
    = groupsForRepository repoName
        (Some {| TransformChanges.Group := declared |}).
Proof.
  rewrite !groupsForRepository_applicable. simpl.
  unfold applicableGroups. split; [|split].
  - induction declared as [|g declared IH]; simpl; [constructor|].
    destruct (_ || _); by constructor.
  - intros g. rewrite !list_elem_of_In, filter_In, orb_true_iff.
    by rewrite !String.eqb_eq.
  - induction declared as [|g declared IH]; simpl; [done|].
    destruct (_ || _) eqn:Hg; simpl; [|done]. by rewrite Hg, IH.
Qed.

(** * Further properties of the partition *)

(** The last matching group splits the declared list: nothing after it
    matches. *)
Lemma lastMatchingGroup_Some_split (groups : list Group.t) (name : string)
    (g : Group.t) :
  lastMatchingGroup groups name = Some g →
  ∃ pre post,
    groups = pre ++ g :: post
    ∧ Contains name (Group.Directory g) = true
    ∧ ∀ g', g' ∈ post → Contains name (Group.Directory g') = false.
Proof.
  induction groups as [|g' groups IH] using rev_ind; [done|].
  rewrite lastMatchingGroup_snoc.
  destruct (Contains name (Group.Directory g')) eqn:Hg'.
  - intros [= <-]. exists groups, []. split; [done|]. split; [done|].
    by intros ? ?%elem_of_nil.
  - intros (pre & post & -> & Hg & Hpost)%IH.
    exists pre, (post ++ [g']). split; [by rewrite <- app_assoc|].
    split; [done|]. intros g'' [Hin|Hin]%elem_of_app; [by apply Hpost|].
    apply list_elem_of_singleton in Hin. by subst.
Qed.

(** A target other than the default branch is the branch of the last
    matching group, whose directory is not empty. *)
Lemma targetBranch_group (groups : list Group.t) (defaultBranch : string)
    (f : FileDiff.t) :
  targetBranch groups defaultBranch f ≠ defaultBranch →
  ∃ g, lastMatchingGroup groups (effectiveName f) = Some g
       ∧ Group.Directory g ≠ ""
       ∧ targetBranch groups defaultBranch f = Group.Branch g.
Proof.
  unfold targetBranch.
  destruct (lastMatchingGroup groups (effectiveName f)) as [g|]; [|done].
  destruct (String.eqb_spec (Group.Directory g) ""); [done|].
  intros _. by exists g.
Qed.

(** In a list without repeated branches, a branch names its group. *)
Lemma NoDup_branch_inj (groups : list Group.t) (g g' : Group.t) :
  NoDup (Group.Branch <$> groups) →
  g ∈ groups → g' ∈ groups → Group.Branch g = Group.Branch g' → g = g'.
Proof.
  intros Hnodup [i Hi]%list_elem_of_lookup [j Hj]%list_elem_of_lookup Hb.
  assert (i = j) as ->; [|congruence].
  eapply NoDup_lookup; [exact Hnodup | |].
  - by rewrite list_lookup_fmap, Hi.
  - rewrite list_lookup_fmap, Hj. simpl. by rewrite Hb.
Qed.

(** What puts a file diff under a branch other than the default one. *)
Lemma group_branch_files (groups : list Group.t) (fileDiffs : list FileDiff.t)
    (defaultBranch : string) (byBranch : gmap string (list FileDiff.t))
    (branch : string) (diffs : list FileDiff.t) (f : FileDiff.t) :
  fileDiffsByBranch fileDiffs defaultBranch groups = Ok byBranch →
  byBranch !! branch = Some diffs →
  branch ≠ defaultBranch →
  f ∈ diffs →
  ∃ pre g post,
    groups = pre ++ g :: post
    ∧ Group.Branch g = branch
    ∧ Group.Directory g ≠ ""
    ∧ Contains (effectiveName f) (Group.Directory g) = true
    ∧ (∀ g', g' ∈ post →
         Contains (effectiveName f) (Group.Directory g') = false).
Proof.
  intros HbyBranch Hdiffs Hne Hf.
  rewrite (fileDiffsByBranch_Some _ _ _ _ _ _ HbyBranch Hdiffs) in Hf.
  apply assigned_elem_of in Hf as [_ Htarget].
  destruct (targetBranch_group groups defaultBranch f) as (g & Hlast & Hdir & Hg);
    [congruence|].
  destruct (lastMatchingGroup_Some_split _ _ _ Hlast)
    as (pre & post & Hsplit & Hmatch & Hpost).
  exists pre, g, post. split; [done|]. split; [congruence|]. by repeat split.
Qed.

(** X3: a file diff filed under a branch other than the default branch
    contains the directory of a group that declares this branch, a
    directory that is not empty, and contains the directory of no group
    declared after it; in a validated list that group is the only one
    declaring the branch. *)
Theorem group_branch_holds_only_matching_files (fileDiffs : list FileDiff.t)
    (defaultBranch : string) (groups : list Group.t)
    (byBranch : gmap string (list FileDiff.t)) (branch : string)
    (diffs : list FileDiff.t) (f : FileDiff.t) :
  fileDiffsByBranch fileDiffs defaultBranch groups = Ok byBranch →
  byBranch !! branch = Some diffs →
  branch ≠ defaultBranch →
  f ∈ diffs →
  ∃ pre g post,
    groups = pre ++ g :: post
    ∧ Group.Branch g = branch
    ∧ Group.Directory g ≠ ""
    ∧ Contains (effectiveName f) (Group.Directory g) = true
    ∧ (∀ g', g' ∈ post →
         Contains (effectiveName f) (Group.Directory g') = false)
    ∧ (∀ repoName,
         validateGroups repoName defaultBranch groups = None →
         ∀ g', g' ∈ groups → Group.Branch g' = branch → g' = g).
Proof.
  intros HbyBranch Hdiffs Hne Hf.
  destruct (group_branch_files _ _ _ _ _ _ _ HbyBranch Hdiffs Hne Hf)
    as (pre & g & post & Hsplit & Hbranch & Hdir & Hmatch & Hpost).
  exists pre, g, post. split; [done|]. split; [done|].
  split; [done|]. split; [done|]. split; [done|].
  intros repoName [Hnodup _]%validateGroups_from_None g' Hg' Hbranch'.
  apply (NoDup_branch_inj groups); [done|done| |congruence].
  rewrite Hsplit. apply elem_of_app. right. by left.
Qed.

(** X4: validation does not look at directories.  When a validated list
    declares a directory twice, the earlier of the two groups never gets a
    file diff: its branch is absent from the partition. *)
Theorem repeated_directory_shadows_earlier_group (repoName : string)
    (fileDiffs : list FileDiff.t) (defaultBranch : string)
    (groups : list Group.t) (byBranch : gmap string (list FileDiff.t))
    (i j : nat) (g1 g2 : Group.t) :
  validateGroups repoName defaultBranch groups = None →
  groups !! i = Some g1 →
  groups !! j = Some g2 →
  i < j →
  Group.Directory g1 = Group.Directory g2 →
  fileDiffsByBranch fileDiffs defaultBranch groups = Ok byBranch →
  byBranch !! Group.Branch g1 = None.
Proof.
  intros Hvalid Hi Hj Hij Hdir HbyBranch.
  pose proof Hvalid as [Hnodup Hall]%validateGroups_from_None.
  rewrite Forall_forall in Hall.
  assert (g1 ∈ groups) as Hg1 by (apply list_elem_of_lookup; by exists i).
  destruct (Hall g1 Hg1) as [_ Hne].
  destruct (byBranch !! Group.Branch g1) as [diffs|] eqn:Hdiffs; [|done].
  exfalso.
  pose proof (fileDiffsByBranch_Some _ _ _ _ _ _ HbyBranch Hdiffs) as Hassigned.
  destruct (fileDiffsByBranch_lookup fileDiffs defaultBranch groups)
    as (byBranch' & HbyBranch' & Hlookup).
  rewrite HbyBranch in HbyBranch'. injection HbyBranch' as <-.
  specialize (Hlookup (Group.Branch g1)). rewrite Hdiffs in Hlookup.
  rewrite decide_False in Hlookup by done.
  destruct diffs as [|f diffs].
  { rewrite <- Hassigned in Hlookup. done. }
  destruct (group_branch_files groups fileDiffs defaultBranch byBranch
              (Group.Branch g1) (f :: diffs) f HbyBranch Hdiffs Hne)
    as (pre & g & post & Hsplit & Hbranch & _ & Hmatch & Hpost);
    [by left|].
  assert (g = g1) as ->.
  { apply (NoDup_branch_inj groups); [done| |done|done].
    rewrite Hsplit. apply elem_of_app. right. by left. }
  assert (i = List.length pre) as ->.
  { eapply NoDup_lookup; [exact Hnodup | |].
    - by rewrite list_lookup_fmap, Hi.
    - rewrite Hsplit, list_lookup_fmap, list_lookup_middle by done. done. }
  assert (g2 ∈ post) as Hg2.
  { rewrite Hsplit in Hj.
    rewrite lookup_app_r in Hj by lia.
    destruct (j - List.length pre) as [|k] eqn:Hk; [lia|].
    simpl in Hj. apply list_elem_of_lookup. by exists k. }
  apply Hpost in Hg2. congruence.
Qed.

(** The loop over the file diffs only looks at the targets of the file
    diffs it is given. *)
Lemma foldl_appendTo_ext (target target' : FileDiff.t → string)
    (fileDiffs : list FileDiff.t) (byBranch : gmap string (list FileDiff.t)) :
  (∀ f, f ∈ fileDiffs → target f = target' f) →
  foldl (λ m f, appendTo m (target f) f) byBranch fileDiffs
  = foldl (λ m f, appendTo m (target' f) f) byBranch fileDiffs.
Proof.
  revert byBranch. induction fileDiffs as [|f fileDiffs IH]; intros byBranch Heq;
    simpl; [done|].
  rewrite (Heq f) by by left. apply IH. intros f' Hf'. apply Heq. by right.
Qed.

Lemma fileDiffsByBranch_ext (fileDiffs : list FileDiff.t)
    (defaultBranch : string) (groups groups' : list Group.t) :
  (∀ f, f ∈ fileDiffs →
     targetBranch groups defaultBranch f = targetBranch groups' defaultBranch f) →
  fileDiffsByBranch fileDiffs defaultBranch groups
  = fileDiffsByBranch fileDiffs defaultBranch groups'.
Proof.
  intros Heq. unfold fileDiffsByBranch. rewrite !assignFileDiffs_foldl.
  f_equal. by apply foldl_appendTo_ext.
Qed.

(** When every file diff goes to the default branch, the partition is that
    branch alone. *)
Lemma fileDiffsByBranch_all_default (fileDiffs : list FileDiff.t)
    (defaultBranch : string) (groups : list Group.t) :
  (∀ f, f ∈ fileDiffs → targetBranch groups defaultBranch f = defaultBranch) →
  fileDiffsByBranch fileDiffs defaultBranch groups
  = Ok {[ defaultBranch := fileDiffs ]}.
Proof.
  intros Hdefault. unfold fileDiffsByBranch.
  rewrite assignFileDiffs_foldl, insert_empty. f_equal.
  rewrite (foldl_appendTo_ext _ (λ _, defaultBranch)) by done.
  by rewrite foldl_appendTo_single.
Qed.

Lemma lastMatchingGroup_app (pre post : list Group.t) (name : string) :
  lastMatchingGroup (pre ++ post) name
  = match lastMatchingGroup post name with
    | Some g => Some g
    | None => lastMatchingGroup pre name
    end.
Proof.
  unfold lastMatchingGroup. by rewrite List.filter_app, last_app.
Qed.

Section PartitionProperties.
Context `{Collaborators}.

(** X5: an empty directory hides everything declared before it: with a
    group on the empty directory in the list, the partition, and so the
    result of [groupFileDiffs], is the one of the groups declared after
    it. *)
Theorem groups_before_empty_directory_are_ignored (pre post : list Group.t)
    (g : Group.t) (completeDiff defaultBranch : string) :
  Group.Directory g = "" →
  (∀ f, targetBranch (pre ++ g :: post) defaultBranch f
        = targetBranch post defaultBranch f)
  ∧ (∀ fileDiffs,
       fileDiffsByBranch fileDiffs defaultBranch (pre ++ g :: post)
       = fileDiffsByBranch fileDiffs defaultBranch post)
  ∧ groupFileDiffs completeDiff defaultBranch (pre ++ g :: post)
    = groupFileDiffs completeDiff defaultBranch post.
Proof.
  intros Hempty.
  assert (∀ f, targetBranch (pre ++ g :: post) defaultBranch f
               = targetBranch post defaultBranch f) as Htarget.
  { intros f. unfold targetBranch.
    rewrite lastMatchingGroup_app.
    change (g :: post) with ([g] ++ post). rewrite lastMatchingGroup_app.
    destruct (lastMatchingGroup post (effectiveName f)); [done|].
    change [g] with ([] ++ [g]).
    rewrite lastMatchingGroup_snoc, Hempty, Contains_empty, Hempty. done. }
  assert (∀ fileDiffs,
            fileDiffsByBranch fileDiffs defaultBranch (pre ++ g :: post)
            = fileDiffsByBranch fileDiffs defaultBranch post) as Hpartition.
  { intros fileDiffs. by apply fileDiffsByBranch_ext. }
  split; [done|]. split; [done|].
  unfold groupFileDiffs.
  destruct (ParseMultiFileDiff completeDiff) as [err|fileDiffs]; [done|].
  simpl. by rewrite Hpartition.
Qed.

(** X6: when no declared directory occurs in the path of any file diff
    (as with no group at all), [groupFileDiffs] splits nothing: it returns
    the default branch alone, mapped to the print of all parsed file
    diffs in their order, or the printer's error under its wrap. *)
Theorem unmatched_diff_is_left_whole (completeDiff defaultBranch : string)
    (groups : list Group.t) (fileDiffs : list FileDiff.t) :
  ParseMultiFileDiff completeDiff = inr fileDiffs →
  (∀ f g, f ∈ fileDiffs → g ∈ groups →
     Contains (effectiveName f) (Group.Directory g) = false) →
  fileDiffsByBranch fileDiffs defaultBranch groups
  = Ok {[ defaultBranch := fileDiffs ]}
  ∧ groupFileDiffs completeDiff defaultBranch groups
    = match PrintMultiFileDiff fileDiffs with
      | inl err => Err (errors_Wrap err "printing multi file diff failed")
      | inr printed => Ok {[ defaultBranch := printed ]}
      end.
Proof.
  intros Hparse Hnone.
  assert (fileDiffsByBranch fileDiffs defaultBranch groups
          = Ok {[ defaultBranch := fileDiffs ]}) as Hpartition.
  { apply fileDiffsByBranch_all_default. intros f Hf.
    apply targetBranch_unmatched. intros g Hg. by apply Hnone. }
  split; [done|].
  unfold groupFileDiffs. rewrite Hparse. simpl. rewrite Hpartition. simpl.
  pose proof (mapRange_perm _ ({[ defaultBranch := fileDiffs ]}
                               : gmap string (list FileDiff.t))) as Hrange.
  rewrite map_to_list_singleton in Hrange.
  apply Permutation_singleton_r in Hrange. rewrite Hrange. simpl.
  destruct (PrintMultiFileDiff fileDiffs); [done|].
  by rewrite insert_empty.
Qed.

End PartitionProperties.

(** * Further properties of the assembler *)

Section AssemblerProperties.
Context `{Collaborators}.

Lemma newSpec_specFor (task : Task.t) (features : FeatureFlags.t)
    (r : Rendered.t) (branch diff : string) :
  bool_decide (ChangesetTemplate.Published (Task.Template task) = None)
  && negb (FeatureFlags.AllowOptionalPublished features) = false →
  newSpec task features (Rendered.title r) (Rendered.body r)
    (Rendered.message r) (Rendered.authorName r) (Rendered.authorEmail r)
    branch diff
  = Ok (specFor task features r branch diff).
Proof.
  unfold newSpec, publishedFor, specFor, resolvedPublication.
  destruct (ChangesetTemplate.Published (Task.Template task)) as [policy|];
    simpl.
  - intros _. destruct (ValueWithSuffix policy _ branch) as [v|]; simpl;
      [done|].
    by destruct (FeatureFlags.AllowOptionalPublished features).
  - by destruct (FeatureFlags.AllowOptionalPublished features).
Qed.

Lemma newSpecs_specFor (task : Task.t) (features : FeatureFlags.t)
    (r : Rendered.t) (entries : list (string * string))
    (specs : list ChangesetSpec.t) :
  bool_decide (ChangesetTemplate.Published (Task.Template task) = None)
  && negb (FeatureFlags.AllowOptionalPublished features) = false →
  newSpecs
    (newSpec task features (Rendered.title r) (Rendered.body r)
       (Rendered.message r) (Rendered.authorName r) (Rendered.authorEmail r))
    entries specs
  = Ok (specs ++ ((λ entry, specFor task features r entry.1 entry.2)
                    <$> entries)).
Proof.
  intros Hflag. revert specs.
  induction entries as [|[branch diff] entries IH]; intros specs; simpl.
  - by rewrite app_nil_r.
  - rewrite newSpec_specFor by done. simpl. rewrite IH.
    by rewrite <- app_assoc.
Qed.

(** The specs of a successful call: [specFor] over the default branch
    with the unmodified diff, or over the grouped diffs as visited. *)
Lemma createChangesetSpecs_specFor (task : Task.t)
    (result : executionResult.t) (features : FeatureFlags.t)
    (specs : list ChangesetSpec.t) :
  createChangesetSpecs task result features = Ok specs →
  ∃ r entries,
    renderedFields task result features = Ok r
    ∧ specs = (λ entry, specFor task features r entry.1 entry.2) <$> entries
    ∧ match groupsForRepository (Repository.Name (Task.Repository task))
              (Task.TransformChanges task) with
      | [] => entries = [(Rendered.defaultBranch r, executionResult.Diff result)]
      | groups =>
          validateGroups (Repository.Name (Task.Repository task))
            (ChangesetTemplate.Branch (Task.Template task)) groups = None
          ∧ ∃ diffsByBranch,
              groupFileDiffs (executionResult.Diff result)
                (Rendered.defaultBranch r) groups = Ok diffsByBranch
              ∧ entries = mapRange diffsByBranch
      end.
Proof.
  intros (r & Hr & Hspecs)%createChangesetSpecs_Ok.
  exists r. unfold specsFor in Hspecs.
  destruct (bool_decide (ChangesetTemplate.Published (Task.Template task) = None)
            && negb (FeatureFlags.AllowOptionalPublished features)) eqn:Hflag.
  - apply andb_true_iff in Hflag as [Hnone%bool_decide_eq_true Hoff].
    apply negb_true_iff in Hoff.
    by destruct (proj1 (specsFor_without_policy task result features r
                          Hnone Hoff) specs).
  - destruct (groupsForRepository _ _) as [|g groups]; simpl in Hspecs.
    + rewrite newSpec_specFor in Hspecs by done. simpl in Hspecs.
      injection Hspecs as <-.
      by exists [(Rendered.defaultBranch r, executionResult.Diff result)].
    + destruct (validateGroups _ _ _) as [err|] eqn:Hvalid; [done|].
      destruct (groupFileDiffs _ _ _) as [diffsByBranch|err|msg] eqn:Hgroup;
        [|done|done].
      rewrite newSpecs_specFor in Hspecs by done. simpl in Hspecs.
      injection Hspecs as <-. exists (mapRange diffsByBranch).
      split; [done|]. split; [done|]. cbv zeta. split; [done|].
      by exists diffsByBranch.
Qed.

(** The branches of a grouping are the default branch and branches of
    groups. *)
Lemma groupFileDiffs_branches (completeDiff defaultBranch : string)
    (groups : list Group.t) (final : gmap string string) (branch : string) :
  groupFileDiffs completeDiff defaultBranch groups = Ok final →
  is_Some (final !! branch) →
  branch ∈ defaultBranch :: (Group.Branch <$> groups).
Proof.
  intros Hfinal Hbranch.
  destruct (groupFileDiffs_Ok_parsed _ _ _ _ Hfinal) as [fileDiffs Hparse].
  pose proof (groupFileDiffs_lookup _ _ _ _ _ branch Hparse Hfinal) as Hlookup.
  destruct (decide (branch = defaultBranch)) as [->|Hne]; [by left|]. right.
  case_decide as Hpresent; [|rewrite Hlookup in Hbranch; by destruct Hbranch].
  destruct Hpresent as [?|Hassigned]; [done|].
  destruct (assigned groups defaultBranch branch fileDiffs) as [|f l] eqn:Hl;
    [done|].
  assert (f ∈ assigned groups defaultBranch branch fileDiffs) as Hf
    by (rewrite Hl; by left).
  apply assigned_elem_of in Hf as [_ Htarget].
  destruct (targetBranch_group groups defaultBranch f) as (g & Hlast & _ & Hg);
    [congruence|].
  apply list_elem_of_fmap. exists g. split; [congruence|].
  by apply lastMatchingGroup_elem_of in Hlast.
Qed.

(** X7: a call that returns specs returns one for the default branch.
    Without applicable groups it carries the unmodified diff; with groups
    it carries the print of the file diffs left to the default branch,
    which is the print of the empty list when every file diff went to a
    group. *)
Theorem default_branch_spec_is_always_produced (task : Task.t)
    (result : executionResult.t) (features : FeatureFlags.t)
    (specs : list ChangesetSpec.t) :
  createChangesetSpecs task result features = Ok specs →
  ∃ r diff,
    renderedFields task result features = Ok r
    ∧ specFor task features r (Rendered.defaultBranch r) diff ∈ specs
    ∧ match groupsForRepository (Repository.Name (Task.Repository task))
              (Task.TransformChanges task) with
      | [] => diff = executionResult.Diff result
      | groups =>
          ∃ fileDiffs,
            ParseMultiFileDiff (executionResult.Diff result) = inr fileDiffs
            ∧ PrintMultiFileDiff
                (assigned groups (Rendered.defaultBranch r)
                   (Rendered.defaultBranch r) fileDiffs) = inr diff
            ∧ ((∀ f, f ∈ fileDiffs →
                  targetBranch groups (Rendered.defaultBranch r) f
                  ≠ Rendered.defaultBranch r) →
               PrintMultiFileDiff [] = inr diff)
      end.
Proof.
  intros (r & entries & Hr & -> & Hshape)%createChangesetSpecs_specFor.
  exists r.
  destruct (groupsForRepository _ _) as [|g groups].
  - subst entries. exists (executionResult.Diff result).
    split; [done|]. split; [by left | done].
  - destruct Hshape as (_ & diffsByBranch & Hgroup & ->).
    destruct (groupFileDiffs_Ok_parsed _ _ _ _ Hgroup) as [fileDiffs Hparse].
    pose proof (groupFileDiffs_lookup _ _ _ _ _ (Rendered.defaultBranch r)
                  Hparse Hgroup) as Hlookup.
    rewrite decide_True in Hlookup by by left.
    destruct Hlookup as (diff & Hprint & Hdefault).
    exists diff. split; [done|]. split.
    + apply list_elem_of_fmap.
      exists (Rendered.defaultBranch r, diff). split; [done|].
      by apply mapRange_elem_of.
    + exists fileDiffs. split; [done|]. split; [done|].
      intros Hnone%assigned_nil. by rewrite Hnone in Hprint.
Qed.

(** X8: the specs of one call are built alike: same base repository, ref
    and revision, head repository equal to the base repository, the title,
    body, commit message and author rendered once for the call, and
    exactly one commit; they differ in the branch of the head ref, the
    diff, and the publication value resolved for that branch. *)
Theorem specs_share_rendered_metadata (task : Task.t)
    (result : executionResult.t) (features : FeatureFlags.t)
    (specs : list ChangesetSpec.t) :
  createChangesetSpecs task result features = Ok specs →
  ∃ r,
    renderedFields task result features = Ok r
    ∧ ∀ spec, spec ∈ specs →
        ∃ branch diff,
          spec
          = {| ChangesetSpec.BaseRepository :=
                 Repository.ID (Task.Repository task);
               ChangesetSpec.BaseRef := BaseRef (Task.Repository task);
               ChangesetSpec.BaseRev := Rev (Task.Repository task);
               ChangesetSpec.HeadRepository :=
                 Repository.ID (Task.Repository task);
               ChangesetSpec.HeadRef := EnsureRefPrefix branch;
               ChangesetSpec.Title := Rendered.title r;
               ChangesetSpec.Body := Rendered.body r;
               ChangesetSpec.Commits :=
                 [ {| GitCommitDescription.Message := Rendered.message r;
                      GitCommitDescription.AuthorName := Rendered.authorName r;
                      GitCommitDescription.AuthorEmail :=
                        Rendered.authorEmail r;
                      GitCommitDescription.Diff := diff |} ];
               ChangesetSpec.Published :=
                 {| PublishedValue.Val :=
                      resolvedPublication task features branch |} |}.
Proof.
  intros (r & entries & Hr & -> & _)%createChangesetSpecs_specFor.
  exists r. split; [done|].
  intros spec ([branch diff] & -> & _)%list_elem_of_fmap.
  by exists branch, diff.
Qed.

(** X9: [createChangesetSpecs] returns specs or an error; it never
    panics. *)
Theorem createChangesetSpecs_never_panics (task : Task.t)
    (result : executionResult.t) (features : FeatureFlags.t) :
  (∃ specs, createChangesetSpecs task result features = Ok specs)
  ∨ (∃ err, createChangesetSpecs task result features = Err err).
Proof.
  rewrite createChangesetSpecs_stages.
  destruct (renderedFields_outcome task result features)
    as [[r ->] | [err ->]]; [|by eauto].
  simpl. unfold specsFor.
  destruct (groupsForRepository _ _) as [|g groups]; simpl.
  - pose proof (newSpec_cases task features r (Rendered.defaultBranch r)
                  (executionResult.Diff result)) as Hmk. simpl in Hmk.
    destruct (bool_decide _ && negb _).
    + rewrite Hmk. by eauto.
    + destruct Hmk as (spec & -> & _). by eauto.
  - destruct (validateGroups _ _ _) as [err|]; [by eauto|].
    destruct (groupFileDiffs_outcome (executionResult.Diff result)
                (Rendered.defaultBranch r) (g :: groups))
      as [[diffsByBranch ->] | [err ->]]; [|by eauto].
    pose proof (newSpecs_cases task features r (mapRange diffsByBranch) [])
      as Hloop. simpl in Hloop.
    destruct (bool_decide _ && negb _).
    + destruct Hloop as [[_ ->] | [_ ->]]; by eauto.
    + destruct Hloop as (new & -> & _). by eauto.
Qed.

(** X10: a successful call returns one spec per branch of the grouping,
    for pairwise distinct branches: at least one spec, and at most one
    more than there are applicable groups. *)
Theorem specs_are_one_per_distinct_branch (task : Task.t)
    (result : executionResult.t) (features : FeatureFlags.t)
    (specs : list ChangesetSpec.t) :
  createChangesetSpecs task result features = Ok specs →
  (∃ r entries,
     renderedFields task result features = Ok r
     ∧ specs = (λ entry, specFor task features r entry.1 entry.2) <$> entries
     ∧ NoDup entries.*1)
  ∧ (1 ≤ List.length specs)%nat
  ∧ (List.length specs
     ≤ S (List.length
            (groupsForRepository (Repository.Name (Task.Repository task))
               (Task.TransformChanges task))))%nat.
Proof.
  intros (r & entries & Hr & -> & Hshape)%createChangesetSpecs_specFor.
  rewrite length_fmap.
  destruct (groupsForRepository _ _) as [|g groups] eqn:Hgroups.
  - subst entries. split; [|simpl; lia].
    exists r. eexists. split; [done|]. split; [done|].
    simpl. apply NoDup_singleton.
  - destruct Hshape as (_ & diffsByBranch & Hgroup & ->).
    split; [|split].
    + exists r, (mapRange diffsByBranch). split; [done|]. split; [done|].
      apply mapRange_NoDup.
    + destruct (groupFileDiffs_default_present _ _ _ _ Hgroup)
        as [printed Hdefault].
      apply mapRange_elem_of in Hdefault.
      destruct (mapRange diffsByBranch); [by apply elem_of_nil in Hdefault|].
      simpl. lia.
    + assert ((mapRange diffsByBranch).*1
              ⊆+ Rendered.defaultBranch r :: (Group.Branch <$> g :: groups))
        as Hsub.
      { apply NoDup_submseteq; [apply mapRange_NoDup|].
        intros branch ([b printed] & -> & Hin)%list_elem_of_fmap. simpl.
        apply mapRange_elem_of in Hin.
        by apply (groupFileDiffs_branches _ _ _ _ _ Hgroup). }
      apply submseteq_length in Hsub.
      rewrite length_fmap in Hsub. simpl in Hsub.
      rewrite length_fmap in Hsub. simpl. lia.
Qed.

End AssemblerProperties.

(** Validation resumes after an accepted prefix with the branches of the
    prefix seen. *)
Lemma validateGroups_from_app (repoName defaultBranch : string)
    (seen : gset string) (pre rest : list Group.t) :
  validateGroups_from repoName defaultBranch seen pre = None →
  ∃ seen' : gset string,
    (∀ b, b ∈ seen' ↔ b ∈ seen ∨ b ∈ (Group.Branch <$> pre))
    ∧ validateGroups_from repoName defaultBranch seen (pre ++ rest)
      = validateGroups_from repoName defaultBranch seen' rest.
Proof.
  revert seen. induction pre as [|g pre IH]; intros seen; simpl.
  - intros _. exists seen. split; [|done].
    intros b. split; [by left|]. intros [?|?%elem_of_nil]; done.
  - destruct (decide (Group.Branch g ∈ seen)); [done|].
    destruct (String.eqb (Group.Branch g) defaultBranch); [done|].
    intros (seen' & Hseen' & ->)%IH. exists seen'. split; [|done].
    intros b. rewrite Hseen', elem_of_union, elem_of_singleton, elem_of_cons.
    tauto.
Qed.

Section ValidationFirst.
Context `{Collaborators}.

(** X11: validation comes before any work on the diff.  When, among the
    applicable groups, the first group that breaks a rule repeats an
    earlier branch, the call fails with the duplicate-branch error for
    that branch; when it takes the branch of the changeset template, as
    written and not as rendered, the call fails with the default-branch
    error.  Neither depends on the diff, the flags or the publication
    policy. *)
Theorem validation_failure_precedes_grouping (task : Task.t)
    (result : executionResult.t) (features : FeatureFlags.t) (r : Rendered.t)
    (pre post : list Group.t) (g : Group.t) :
  renderedFields task result features = Ok r →
  groupsForRepository (Repository.Name (Task.Repository task))
    (Task.TransformChanges task) = pre ++ g :: post →
  validateGroups (Repository.Name (Task.Repository task))
    (ChangesetTemplate.Branch (Task.Template task)) pre = None →
  (Group.Branch g ∈ (Group.Branch <$> pre) →
   createChangesetSpecs task result features
   = Err (errDuplicateBranch (Repository.Name (Task.Repository task))
            (Group.Branch g)))
  ∧ ((Group.Branch g ∉ (Group.Branch <$> pre)) →
     Group.Branch g = ChangesetTemplate.Branch (Task.Template task) →
     createChangesetSpecs task result features
     = Err (errDefaultBranch (Repository.Name (Task.Repository task))
              (ChangesetTemplate.Branch (Task.Template task)))).
Proof.
  intros Hr Hgroups Hpre.
  rewrite createChangesetSpecs_stages, Hr. simpl. unfold specsFor.
  rewrite Hgroups.
  replace (negb (List.length (pre ++ g :: post) =? 0)%nat) with true
    by by destruct pre.
  unfold validateGroups in *.
  destruct (validateGroups_from_app _ _ _ pre (g :: post) Hpre)
    as (seen' & Hseen' & ->).
  simpl. split.
  - intros Hdup. rewrite decide_True; [done|]. apply Hseen'. by right.
  - intros Hfresh Hdefault. rewrite decide_False.
    + by rewrite (proj2 (String.eqb_eq _ _) Hdefault).
    + intros [?%elem_of_empty|?]%Hseen'; done.
Qed.

Lemma newSpecs_ext (mk mk' : string → string → outcome ChangesetSpec.t)
    (entries : list (string * string)) (specs : list ChangesetSpec.t) :
  (∀ branch diff, mk branch diff = mk' branch diff) →
  newSpecs mk entries specs = newSpecs mk' entries specs.
Proof.
  intros Heq. revert specs.
  induction entries as [|[branch diff] entries IH]; intros specs; simpl;
    [done|].
  rewrite Heq. destruct (mk' branch diff); simpl; [apply IH|done|done].
Qed.

(** X12: the feature flags only fill what the changeset template leaves
    out.  With an author declared and a publication policy that yields a
    value for every branch, a call returns the same under any two sets of
    flags. *)
Theorem flags_are_irrelevant_for_complete_templates (task : Task.t)
    (result : executionResult.t) (features features' : FeatureFlags.t)
    (author : GitCommitAuthor.t) (policy : overridable_BoolOrString) :
  ExpandedGitCommitDescription.Author
    (ChangesetTemplate.Commit (Task.Template task)) = Some author →
  ChangesetTemplate.Published (Task.Template task) = Some policy →
  (∀ branch,
     is_Some (ValueWithSuffix policy (Repository.Name (Task.Repository task))
                branch)) →
  createChangesetSpecs task result features
  = createChangesetSpecs task result features'.
Proof.
  intros Hauthor Hpolicy Hvalue.
  assert (∀ title body message name email branch diff,
            newSpec task features title body message name email branch diff
            = newSpec task features' title body message name email branch diff)
    as Hmk.
  { intros. unfold newSpec, publishedFor. rewrite Hpolicy.
    destruct (Hvalue branch) as [v ->]. done. }
  unfold createChangesetSpecs, resolveAuthor. rewrite Hauthor.
  do 6 (match goal with
        | |- context [call (RenderChangesetTemplateField ?field ?tmpl ?ctx)
                      ≫= _] =>
            destruct (RenderChangesetTemplateField field tmpl ctx); simpl;
            [done|]
        end).
  destruct (negb _).
  - destruct (validateGroups _ _ _); [done|].
    destruct (groupFileDiffs _ _ _); [|done|done].
    apply newSpecs_ext. intros. apply Hmk.
  - by rewrite Hmk.
Qed.

End ValidationFirst.

(** * The debug command *)

Lemma string_app_cons (x : ascii) (a b : string) :
  String x a +:+ b = String x (a +:+ b).
Proof. reflexivity. Qed.

Lemma string_app_nil_l (a : string) : "" +:+ a = a.
Proof. reflexivity. Qed.

Lemma string_app_assoc (a b c : string) : (a +:+ b) +:+ c = a +:+ b +:+ c.
Proof.
  induction a as [|x a IH]; [done|]. by rewrite !string_app_cons, IH.
Qed.

Lemma string_app_nil_r (a : string) : a +:+ "" = a.
Proof. induction a as [|x a IH]; [done|]. by rewrite string_app_cons, IH. Qed.

Lemma string_length_app (a b : string) :
  String.length (a +:+ b) = (String.length a + String.length b)%nat.
Proof.
  induction a as [|x a IH]; [done|]. rewrite string_app_cons. simpl.
  by rewrite IH.
Qed.

Lemma substring_all (s : string) : substring 0 (String.length s) s = s.
Proof. induction s as [|x s IH]; simpl; [done|]. by rewrite IH. Qed.

Lemma substring_app_l (p s : string) :
  substring 0 (String.length p) (p +:+ s) = p.
Proof.
  induction p as [|x p IH]; [by destruct s|].
  rewrite string_app_cons. simpl. by rewrite IH.
Qed.

Lemma substring_app_r (p s : string) (n : nat) :
  substring (String.length p) n (p +:+ s) = substring 0 n s.
Proof.
  induction p as [|x p IH]; [done|]. rewrite string_app_cons. simpl. apply IH.
Qed.

Lemma substring_split (s : string) (n : nat) :
  (n ≤ String.length s)%nat →
  substring 0 n s +:+ substring n (String.length s - n) s = s.
Proof.
  revert n. induction s as [|x s IH]; intros n Hn; simpl in *.
  - by destruct n.
  - destruct n as [|n]; simpl.
    + by rewrite substring_all.
    + rewrite string_app_cons, IH by lia. done.
Qed.

(** [HasSuffix] is ending in the suffix, and [TrimSuffix] takes it off. *)
Lemma HasSuffix_spec (s suffix : string) :
  Debug.HasSuffix s suffix = true ↔ ∃ p, s = p +:+ suffix.
Proof.
  unfold Debug.HasSuffix. rewrite andb_true_iff, Nat.leb_le, String.eqb_eq.
  split.
  - intros [Hlen Hsuf].
    exists (substring 0 (String.length s - String.length suffix) s).
    pose proof (substring_split s (String.length s - String.length suffix))
      as Hsplit.
    replace (String.length s - (String.length s - String.length suffix))%nat
      with (String.length suffix) in Hsplit by lia.
    rewrite Hsuf in Hsplit. symmetry. apply Hsplit. lia.
  - intros [p ->]. rewrite string_length_app. split; [lia|].
    replace (String.length p + String.length suffix - String.length suffix)%nat
      with (String.length p) by lia.
    by rewrite substring_app_r, substring_all.
Qed.

Lemma TrimSuffix_app (p suffix : string) :
  Debug.TrimSuffix (p +:+ suffix) suffix = p.
Proof.
  unfold Debug.TrimSuffix.
  rewrite (proj2 (HasSuffix_spec _ _)) by by exists p.
  rewrite string_length_app.
  replace (String.length p + String.length suffix - String.length suffix)%nat
    with (String.length p) by lia.
  apply substring_app_l.
Qed.

(** X13: from the [-out] flag, the archive file is the base directory of
    the entries followed by [.zip]; a flag already ending in [.zip] is
    the file name as it is, any other gets [.zip] appended and is the
    base directory; and the file name, given as the flag, yields the same
    two names again. *)
Theorem outPaths_file_is_baseDir_zip (base : string) :
  (Debug.outPaths base).2 = (Debug.outPaths base).1 +:+ ".zip"
  ∧ Debug.HasSuffix (Debug.outPaths base).2 ".zip" = true
  ∧ (Debug.HasSuffix base ".zip" = true → (Debug.outPaths base).2 = base)
  ∧ (Debug.HasSuffix base ".zip" = false →
     (Debug.outPaths base).1 = base)
  ∧ Debug.outPaths (Debug.outPaths base).2 = Debug.outPaths base.
Proof.
  unfold Debug.outPaths.
  destruct (Debug.HasSuffix base ".zip") eqn:Hsuffix; simpl.
  - apply HasSuffix_spec in Hsuffix as [p ->].
    rewrite TrimSuffix_app.
    rewrite (proj2 (HasSuffix_spec (p +:+ ".zip") ".zip")) by by exists p.
    simpl. repeat split; done.
  - rewrite (proj2 (HasSuffix_spec (base +:+ ".zip") ".zip"))
      by by exists base.
    simpl. rewrite TrimSuffix_app. repeat split; done.
Qed.

Section DebugCommand.
Context `{Debug.Host}.

(** The loop over the received files archives a prefix of them, all
    without error, and touches nothing but the archive and the printed
    lines; it returns no error only after the last file. *)
Lemma archiveFiles_archived (verbose : bool)
    (files : list Debug.archiveFile.t) (w : Debug.world.t) :
  ∃ archived,
    archived `prefix_of` files
    ∧ Forall (λ f, Debug.archiveFile.err f = None) archived
    ∧ Debug.world.zip (Debug.archiveFiles verbose files w).1
      = Debug.world.zip w ++ (zipEntry <$> archived)
    ∧ Debug.world.files (Debug.archiveFiles verbose files w).1
      = Debug.world.files w
    ∧ Debug.world.rlimit (Debug.archiveFiles verbose files w).1
      = Debug.world.rlimit w
    ∧ ((Debug.archiveFiles verbose files w).2 = None → archived = files).
Proof.
  revert w. induction files as [|f files IH]; intros w; simpl.
  - exists []. rewrite app_nil_r. by repeat split.
  - destruct (Debug.archiveFile.err f) as [e|] eqn:Herr.
    { exists []. rewrite app_nil_r. simpl.
      repeat split; [apply prefix_nil | constructor | done]. }
    destruct (Debug.zipCreate _ _) as [e|].
    { exists []. rewrite app_nil_r.
      destruct verbose; simpl;
        (repeat split; [apply prefix_nil | constructor | done]). }
    destruct (Debug.zipWrite _ _) as [e|].
    { exists []. rewrite app_nil_r.
      destruct verbose; simpl;
        (repeat split; [apply prefix_nil | constructor | done]). }
    match goal with
    | |- context [Debug.archiveFiles verbose files ?w'] =>
        destruct (IH w')
          as (archived & Hprefix & Hok & Hzip & Hfiles & Hrlimit & Hall)
    end.
    exists (f :: archived). rewrite Hzip, Hfiles, Hrlimit.
    split; [by apply prefix_cons|]. split; [by constructor|].
    split; [|split; [|split]].
    + destruct verbose; simpl; by rewrite <- app_assoc.
    + by destruct verbose.
    + by destruct verbose.
    + intros Hnone. by rewrite Hall.
Qed.

(** A file that carries an error stops the loop, whatever the zip writer
    does. *)
Lemma archiveFiles_aborts (verbose : bool) (files : list Debug.archiveFile.t)
    (w : Debug.world.t) :
  Exists (λ f, Debug.archiveFile.err f ≠ None) files →
  ∃ e, (Debug.archiveFiles verbose files w).2 = Some e.
Proof.
  intros Hex. revert w. induction files as [|f files IH]; intros w.
  - by apply Exists_nil in Hex.
  - simpl. destruct (Debug.archiveFile.err f) as [e|] eqn:Herr; [by eauto|].
    destruct (Debug.zipCreate _ _); [by eauto|].
    destruct (Debug.zipWrite _ _); [by eauto|].
    apply IH. apply Exists_cons in Hex as [Hf|Hrest]; [|done].
    by rewrite Herr in Hf.
Qed.

(** With a zip writer that does not fail, files without error are all
    archived. *)
Lemma archiveFiles_completes (verbose : bool)
    (files : list Debug.archiveFile.t) (w : Debug.world.t) :
  (∀ entries name, Debug.zipCreate entries name = None) →
  (∀ name data, Debug.zipWrite name data = None) →
  Forall (λ f, Debug.archiveFile.err f = None) files →
  (Debug.archiveFiles verbose files w).2 = None.
Proof.
  intros Hcreate Hwrite Hok. revert w.
  induction files as [|f files IH]; intros w; simpl; [done|].
  apply Forall_cons in Hok as [Hf Hrest].
  rewrite Hf, Hcreate, Hwrite. by apply IH.
Qed.

Lemma Forall_filter_true {A : Type} (P : A → bool) (l : list A) :
  Forall (λ x, P x = true) (List.filter P l).
Proof.
  apply Forall_forall. intros x Hx. apply list_elem_of_In in Hx.
  by apply filter_In in Hx as [_ Hx].
Qed.

(** The sent files are the required ones and the previous logs that
    succeeded. *)
Lemma kubeFiles_required (pods : Debug.podList.t) (baseDir : string) :
  Forall (λ f, Debug.archiveFile.err f = None) (Debug.kubeFiles pods baseDir)
  ↔ Forall (λ f, Debug.archiveFile.err f = None) (kubeRequired pods baseDir).
Proof.
  unfold Debug.kubeFiles, kubeRequired. rewrite !Forall_app.
  split; [tauto|]. intros (Hfirst & Hlogs & Hdescribe & Hmanifest).
  repeat split; try done.
  eapply Forall_impl; [apply Forall_filter_true|].
  intros f Hf. by apply bool_decide_eq_true in Hf.
Qed.

(** X14: with a zip writer that does not fail, [archiveKube] returns no
    error exactly when [kubectl get pods] and the commands for the
    events, the volumes, the claims and the log, description and manifest
    of every pod succeed: a failing [kubectl logs --previous] never makes
    it fail.  The archive then gains one entry per sent file, the
    previous logs that succeeded included, in the order received. *)
Theorem archiveKube_succeeds_iff_required_commands_do (verbose : bool)
    (baseDir : string) (w : Debug.world.t) :
  (∀ entries name, Debug.zipCreate entries name = None) →
  (∀ name data, Debug.zipWrite name data = None) →
  ((Debug.archiveKube verbose baseDir w).2 = None
   ↔ Debug.getPods.2 = None
     ∧ Forall (λ f, Debug.archiveFile.err f = None)
         (kubeRequired Debug.getPods.1 baseDir))
  ∧ ((Debug.archiveKube verbose baseDir w).2 = None →
     Debug.world.zip (Debug.archiveKube verbose baseDir w).1
     ≡ₚ Debug.world.zip w
        ++ (zipEntry <$> Debug.kubeFiles Debug.getPods.1 baseDir)).
Proof.
  intros Hcreate Hwrite. unfold Debug.archiveKube.
  destruct Debug.getPods as [pods [e|]] eqn:Hpods; simpl.
  { split; [|done]. split; [done|]. by intros [? _]. }
  set (w' := if verbose then _ else w).
  assert (Debug.world.zip w' = Debug.world.zip w) as Hw'
    by (subst w'; by destruct verbose).
  split.
  - rewrite <- kubeFiles_required. split.
    + intros Hnone. split; [done|].
      destruct (archiveFiles_archived verbose
                  (Debug.received (Debug.kubeFiles pods baseDir)) w')
        as (archived & _ & Hok & _ & _ & _ & Hall).
      rewrite (Hall Hnone) in Hok.
      by rewrite (Debug.received_perm (Debug.kubeFiles pods baseDir)) in Hok.
    + intros [_ Hok]. apply archiveFiles_completes; [done|done|].
      by rewrite (Debug.received_perm (Debug.kubeFiles pods baseDir)).
  - intros Hnone.
    destruct (archiveFiles_archived verbose
                (Debug.received (Debug.kubeFiles pods baseDir)) w')
      as (archived & _ & _ & Hzip & _ & _ & Hall).
    rewrite Hzip, (Hall Hnone), Hw'.
    by rewrite (Debug.received_perm (Debug.kubeFiles pods baseDir)).
Qed.

(** Every file of [archiveKube] is named under [kubectl/] in the base
    directory, every file of [archiveDocker] under [docker/]. *)
Lemma kubeFiles_names (pods : Debug.podList.t) (baseDir : string) :
  Forall (λ f, ∃ rest, Debug.archiveFile.name f
                       = baseDir +:+ "/kubectl/" +:+ rest)
    (Debug.kubeFiles pods baseDir).
Proof.
  unfold Debug.kubeFiles. rewrite !Forall_app. repeat split.
  - repeat constructor; by eexists.
  - apply Forall_fmap, Forall_forall. intros pc _. by eexists.
  - apply Forall_forall. intros f Hf.
    apply list_elem_of_In, filter_In in Hf as [Hf _].
    apply list_elem_of_In, list_elem_of_fmap in Hf as (pc & -> & _).
    by eexists.
  - apply Forall_fmap, Forall_forall. intros pod _. by eexists.
  - apply Forall_fmap, Forall_forall. intros pod _. by eexists.
Qed.

Lemma dockerFiles_names (containers : list string) (baseDir : string) :
  Forall (λ f, ∃ rest, Debug.archiveFile.name f
                       = baseDir +:+ "/docker/" +:+ rest)
    (Debug.dockerFiles containers baseDir).
Proof.
  unfold Debug.dockerFiles. rewrite !Forall_app. repeat split.
  - repeat constructor; by eexists.
  - apply Forall_fmap, Forall_forall. intros c _. by eexists.
  - apply Forall_fmap, Forall_forall. intros c _. by eexists.
Qed.

(** What the loop adds to the archive are entries of received files. *)
Lemma archiveFiles_entries (verbose : bool) (sent : list Debug.archiveFile.t)
    (w : Debug.world.t) (P : string → Prop) :
  Forall (λ f, P (Debug.archiveFile.name f)) sent →
  ∃ new,
    Debug.world.zip (Debug.archiveFiles verbose (Debug.received sent) w).1
    = Debug.world.zip w ++ new
    ∧ Forall (λ entry, P entry.1) new
    ∧ Debug.world.files (Debug.archiveFiles verbose (Debug.received sent) w).1
      = Debug.world.files w
    ∧ Debug.world.rlimit (Debug.archiveFiles verbose (Debug.received sent) w).1
      = Debug.world.rlimit w.
Proof.
  intros Hsent.
  destruct (archiveFiles_archived verbose (Debug.received sent) w)
    as (archived & Hprefix & _ & Hzip & Hfiles & Hrlimit & _).
  exists (zipEntry <$> archived). split; [done|]. split; [|done].
  apply Forall_fmap, Forall_forall. intros f Hf. simpl.
  rewrite Forall_forall in Hsent. apply Hsent.
  rewrite <- (Debug.received_perm sent).
  destruct Hprefix as [rest ->]. apply elem_of_app. by left.
Qed.

Lemma archiveKube_entries (verbose : bool) (baseDir : string)
    (w : Debug.world.t) :
  ∃ new,
    Debug.world.zip (Debug.archiveKube verbose baseDir w).1
    = Debug.world.zip w ++ new
    ∧ Forall (λ entry, ∃ rest, entry.1 = baseDir +:+ "/kubectl/" +:+ rest) new
    ∧ Debug.world.files (Debug.archiveKube verbose baseDir w).1
      = Debug.world.files w
    ∧ Debug.world.rlimit (Debug.archiveKube verbose baseDir w).1
      = Debug.world.rlimit w.
Proof.
  unfold Debug.archiveKube. destruct Debug.getPods as [pods [e|]]; simpl.
  { exists []. by rewrite app_nil_r. }
  set (w' := if verbose then _ else w).
  destruct (archiveFiles_entries verbose (Debug.kubeFiles pods baseDir) w'
              (λ name, ∃ rest, name = baseDir +:+ "/kubectl/" +:+ rest)
              (kubeFiles_names pods baseDir))
    as (new & Hzip & Hnew & Hfiles & Hrlimit).
  exists new. rewrite Hzip, Hfiles, Hrlimit.
  subst w'. by destruct verbose.
Qed.

Lemma archiveDocker_entries (verbose : bool) (baseDir : string)
    (w : Debug.world.t) :
  ∃ new,
    Debug.world.zip (Debug.archiveDocker verbose baseDir w).1
    = Debug.world.zip w ++ new
    ∧ Forall (λ entry, ∃ rest, entry.1 = baseDir +:+ "/docker/" +:+ rest) new
    ∧ Debug.world.files (Debug.archiveDocker verbose baseDir w).1
      = Debug.world.files w
    ∧ Debug.world.rlimit (Debug.archiveDocker verbose baseDir w).1
      = Debug.world.rlimit w.
Proof.
  unfold Debug.archiveDocker, Debug.getContainers.
  destruct (Debug.Output _) as [out [e|]]; simpl.
  { exists []. by rewrite app_nil_r. }
  set (containers := Debug.Split (Debug.TrimSpace out) Debug.newline).
  set (w' := if verbose then _ else _).
  destruct (archiveFiles_entries verbose (Debug.dockerFiles containers baseDir)
              w' (λ name, ∃ rest, name = baseDir +:+ "/docker/" +:+ rest)
              (dockerFiles_names containers baseDir))
    as (new & Hzip & Hnew & Hfiles & Hrlimit).
  exists new. rewrite Hzip, Hfiles, Hrlimit.
  subst w'. by destruct verbose.
Qed.

Lemma setOpenFileLimits_frame (n : N) (w : Debug.world.t) :
  Debug.world.zip (Debug.setOpenFileLimits n w).1 = Debug.world.zip w
  ∧ Debug.world.files (Debug.setOpenFileLimits n w).1 = Debug.world.files w.
Proof.
  unfold Debug.setOpenFileLimits.
  destruct Debug.Getrlimit; [done|]. by destruct (Debug.Setrlimit _).
Qed.

(** X15: whatever the outcome, the entries a run of the handler writes
    to the archive are all named under the base directory that [outPaths]
    takes from the [-out] flag, in [kubectl/] for the deployment [kube]
    and in [docker/] for the others. *)
Theorem handler_archives_under_the_base_directory (verbose : bool)
    (args : list string) (w : Debug.world.t) (deployment base : string) :
  Debug.flagSet_Parse args = inr (deployment, base) →
  ∃ new,
    Debug.world.zip (Debug.handler verbose args w).1
    = Debug.world.zip w ++ new
    ∧ Forall
        (λ entry,
           ∃ rest,
             entry.1
             = (Debug.outPaths base).1
               +:+ (if String.eqb deployment "kube" then "/kubectl/"
                    else "/docker/")
               +:+ rest)
        new.
Proof.
  intros Hparse. unfold Debug.handler. rewrite Hparse.
  destruct (String.eqb base ""); [exists []; by rewrite app_nil_r|].
  destruct (Debug.outPaths base) as [baseDir file]. simpl.
  destruct (Debug.OpenFile file); [exists []; by rewrite app_nil_r|].
  match goal with
  | |- context [Debug.setOpenFileLimits ?n ?w0] =>
      pose proof (setOpenFileLimits_frame n w0) as [Hzip _];
      destruct (Debug.setOpenFileLimits n w0) as [w1 [e|]]
  end; simpl in Hzip; simpl.
  { exists []. by rewrite app_nil_r, Hzip. }
  destruct (String.eqb_spec deployment "serv") as [->|Hserv];
    [|destruct (String.eqb_spec deployment "comp") as [->|Hcomp];
      [|destruct (String.eqb_spec deployment "kube") as [->|Hkube]]].
  - destruct (archiveDocker_entries verbose baseDir w1)
      as (new & Hnew & Hnames & _).
    exists new. rewrite <- Hzip, <- Hnew.
    by destruct (Debug.archiveDocker verbose baseDir w1) as [w2 [e|]].
  - destruct (archiveDocker_entries verbose baseDir w1)
      as (new & Hnew & Hnames & _).
    exists new. rewrite <- Hzip, <- Hnew.
    by destruct (Debug.archiveDocker verbose baseDir w1) as [w2 [e|]].
  - destruct (archiveKube_entries verbose baseDir w1)
      as (new & Hnew & Hnames & _).
    exists new. rewrite <- Hzip, <- Hnew.
    by destruct (Debug.archiveKube verbose baseDir w1) as [w2 [e|]].
  - exists []. simpl. by rewrite app_nil_r, Hzip.
Qed.

(** X16: the handler creates the archive file, and no other file, as soon
    as the flags parse, [-out] is not empty and the file can be opened:
    before it looks at the deployment type.  A deployment type other than
    [serv], [comp] and [kube] is then refused with the file created and
    nothing archived. *)
Theorem handler_creates_the_archive_before_checking_the_deployment
    (verbose : bool) (args : list string) (w : Debug.world.t)
    (deployment base : string) :
  Debug.flagSet_Parse args = inr (deployment, base) →
  Debug.world.files (Debug.handler verbose args w).1
  = (if String.eqb base "" then Debug.world.files w
     else match Debug.OpenFile (Debug.outPaths base).2 with
          | Some _ => Debug.world.files w
          | None => Debug.world.files w ++ [(Debug.outPaths base).2]
          end)
  ∧ (base ≠ "" →
     Debug.OpenFile (Debug.outPaths base).2 = None →
     (∀ w', (Debug.setOpenFileLimits 64000 w').2 = None) →
     deployment ≠ "serv" → deployment ≠ "comp" → deployment ≠ "kube" →
     (Debug.handler verbose args w).2
     = Some (Debug.fmt_Errorf
               "must declare -d=<deployment type>, as serv, comp, or kube" [])
     ∧ Debug.world.zip (Debug.handler verbose args w).1 = Debug.world.zip w).
Proof.
  intros Hparse. unfold Debug.handler. rewrite Hparse. split.
  - destruct (String.eqb base ""); [done|].
    destruct (Debug.outPaths base) as [baseDir file]. simpl.
    destruct (Debug.OpenFile file); [done|].
    match goal with
    | |- context [Debug.setOpenFileLimits ?n ?w0] =>
        pose proof (setOpenFileLimits_frame n w0) as [_ Hfiles];
        destruct (Debug.setOpenFileLimits n w0) as [w1 [e|]]
    end; simpl in Hfiles; [done|].
    destruct (String.eqb deployment "serv");
      [|destruct (String.eqb deployment "comp");
        [|destruct (String.eqb deployment "kube")]].
    + destruct (archiveDocker_entries verbose baseDir w1)
        as (new & _ & _ & Hkept & _).
      rewrite <- Hfiles, <- Hkept.
      by destruct (Debug.archiveDocker verbose baseDir w1) as [w2 [e|]].
    + destruct (archiveDocker_entries verbose baseDir w1)
        as (new & _ & _ & Hkept & _).
      rewrite <- Hfiles, <- Hkept.
      by destruct (Debug.archiveDocker verbose baseDir w1) as [w2 [e|]].
    + destruct (archiveKube_entries verbose baseDir w1)
        as (new & _ & _ & Hkept & _).
      rewrite <- Hfiles, <- Hkept.
      by destruct (Debug.archiveKube verbose baseDir w1) as [w2 [e|]].
    + done.
  - intros Hbase Hopen Hlimit Hserv Hcomp Hkube.
    rewrite (proj2 (String.eqb_neq _ _) Hbase).
    destruct (Debug.outPaths base) as [baseDir file]. simpl in *.
    rewrite Hopen.
    match goal with
    | |- context [Debug.setOpenFileLimits ?n ?w0] =>
        pose proof (setOpenFileLimits_frame n w0) as [Hzip _];
        pose proof (Hlimit w0) as Hnone;
        destruct (Debug.setOpenFileLimits n w0) as [w1 [e|]]
    end; simpl in *; [done|].
    rewrite (proj2 (String.eqb_neq _ _) Hserv),
      (proj2 (String.eqb_neq _ _) Hcomp), (proj2 (String.eqb_neq _ _) Hkube).
    done.
Qed.

End DebugCommand.

Lemma Split_cons (s : string) (sep : ascii) :
  ∃ piece pieces, Debug.Split s sep = piece :: pieces.
Proof.
  destruct s as [|c s]; simpl; [by eauto|].
  destruct (Ascii.eqb c sep); [by eauto|].
  destruct (Debug.Split s sep); by eauto.
Qed.

(** The pieces joined by the separator are the string that was split. *)
Lemma Split_concat (s : string) (sep : ascii) :
  String.concat (String sep "") (Debug.Split s sep) = s.
Proof.
  induction s as [|c s IH]; simpl; [done|].
  destruct (Split_cons s sep) as (piece & pieces & Hsplit).
  rewrite Hsplit in *.
  destruct (Ascii.eqb_spec c sep) as [->|Hne].
  - change (String.concat (String sep "") ("" :: piece :: pieces))
      with ("" +:+ String sep "" +:+ String.concat (String sep "")
                                      (piece :: pieces)).
    by rewrite IH.
  - destruct pieces as [|piece' pieces]; simpl in *; [by rewrite IH|].
    by rewrite string_app_cons, IH.
Qed.

(** No piece holds the separator. *)
Lemma Split_pieces (s : string) (sep : ascii) :
  Forall (λ piece, sep ∉ list_ascii_of_string piece) (Debug.Split s sep).
Proof.
  induction s as [|c s IH]; simpl.
  - constructor; [by intros ?%elem_of_nil | constructor].
  - destruct (Ascii.eqb_spec c sep) as [->|Hne].
    + constructor; [by intros ?%elem_of_nil | done].
    + destruct (Debug.Split s sep) as [|piece pieces].
      * constructor; [|constructor]. simpl.
        intros [?|?%elem_of_nil]%elem_of_cons; congruence.
      * apply Forall_cons in IH as [Hpiece Hpieces].
        constructor; [|done]. simpl.
        intros [?|?]%elem_of_cons; [congruence|done].
Qed.

Lemma Split_empty (sep : ascii) : Debug.Split "" sep = [""].
Proof. reflexivity. Qed.

Section DockerCommand.
Context `{Debug.Host}.

(** X17: [getContainers] returns the lines of the trimmed output of
    [docker container ls]: never an empty list, no name with a line feed
    in it, and the names joined by line feeds are the trimmed output.  It
    returns them together with the error of the command, whatever it is;
    and when the trimmed output is empty, as with no container running,
    the list is the one empty name. *)
Theorem getContainers_returns_the_lines_of_the_output (w : Debug.world.t) :
  (Debug.getContainers w).2.1 ≠ []
  ∧ String.concat (String Debug.newline "") (Debug.getContainers w).2.1
    = Debug.TrimSpace
        (Debug.Output ["docker"; "container"; "ls"; "--format"; "{{.Names}}"]).1
  ∧ Forall (λ name, Debug.newline ∉ list_ascii_of_string name)
      (Debug.getContainers w).2.1
  ∧ (Debug.getContainers w).2.2
    = (Debug.Output ["docker"; "container"; "ls"; "--format"; "{{.Names}}"]).2
  ∧ (Debug.TrimSpace
       (Debug.Output ["docker"; "container"; "ls"; "--format"; "{{.Names}}"]).1
     = "" →
     (Debug.getContainers w).2.1 = [""]).
Proof.
  unfold Debug.getContainers. simpl. split; [|split; [|split; [|split]]].
  - by destruct (Split_cons (Debug.TrimSpace
                               (Debug.Output ["docker"; "container"; "ls";
                                              "--format"; "{{.Names}}"]).1)
                   Debug.newline) as (piece & pieces & ->).
  - apply Split_concat.
  - apply Split_pieces.
  - done.
  - by intros ->.
Qed.

(** X18: with a zip writer that does not fail, [archiveDocker] returns no
    error exactly when [docker container ls], [docker container stats]
    and the log and inspection of every listed name succeed.  When the
    listing is empty the one listed name is the empty one, so that
    success then needs [docker container logs] and
    [docker container inspect] to succeed on the empty name. *)
Theorem archiveDocker_succeeds_iff_every_command_does (verbose : bool)
    (baseDir : string) (w : Debug.world.t) :
  (∀ entries name, Debug.zipCreate entries name = None) →
  (∀ name data, Debug.zipWrite name data = None) →
  ((Debug.archiveDocker verbose baseDir w).2 = None
   ↔ (Debug.getContainers w).2.2 = None
     ∧ Forall (λ f, Debug.archiveFile.err f = None)
         (Debug.dockerFiles (Debug.getContainers w).2.1 baseDir))
  ∧ (Debug.TrimSpace
       (Debug.Output ["docker"; "container"; "ls"; "--format"; "{{.Names}}"]).1
     = "" →
     (Debug.archiveDocker verbose baseDir w).2 = None →
     (Debug.CombinedOutput ["docker"; "container"; "logs"; ""]).2 = None
     ∧ (Debug.CombinedOutput ["docker"; "container"; "inspect"; ""]).2 = None).
Proof.
  intros Hcreate Hwrite.
  assert ((Debug.archiveDocker verbose baseDir w).2 = None
          ↔ (Debug.getContainers w).2.2 = None
            ∧ Forall (λ f, Debug.archiveFile.err f = None)
                (Debug.dockerFiles (Debug.getContainers w).2.1 baseDir))
    as Hiff.
  { unfold Debug.archiveDocker, Debug.getContainers.
    destruct (Debug.Output _) as [out [e|]]; simpl.
    { split; [done|]. by intros [? _]. }
    set (containers := Debug.Split (Debug.TrimSpace out) Debug.newline).
    set (w' := if verbose then _ else _). split.
    - intros Hnone. split; [done|].
      destruct (archiveFiles_archived verbose
                  (Debug.received (Debug.dockerFiles containers baseDir)) w')
        as (archived & _ & Hok & _ & _ & _ & Hall).
      rewrite (Hall Hnone) in Hok.
      by rewrite (Debug.received_perm _) in Hok.
    - intros [_ Hok]. apply archiveFiles_completes; [done|done|].
      by rewrite (Debug.received_perm _). }
  split; [done|].
  intros Hempty [_ Hok]%Hiff.
  unfold Debug.getContainers in Hok. simpl in Hok.
  rewrite Hempty in Hok. simpl in Hok.
  apply Forall_cons in Hok as [_ Hok].
  apply Forall_cons in Hok as [Hlog Hok].
  apply Forall_cons in Hok as [Hinspect _].
  by split.
Qed.

End DockerCommand.

Section Verbosity.
Context `{Debug.Host}.

Lemma quieter_refl (w : Debug.world.t) : quieter w w.
Proof. by repeat split. Qed.

Lemma quieter_print (verbose : bool) (line : Debug.output)
    (w1 w2 : Debug.world.t) :
  quieter w1 w2 →
  quieter (if verbose then Debug.print line w1 else w1) w2.
Proof.
  intros (Hfiles & Hrlimit & Hzip & Hprinted).
  destruct verbose; [|done]. repeat split; simpl; try done.
  by apply sublist_inserts_r.
Qed.

Lemma archiveFiles_quieter (verbose : bool)
    (files : list Debug.archiveFile.t) (w1 w2 : Debug.world.t) :
  quieter w1 w2 →
  (Debug.archiveFiles verbose files w1).2
  = (Debug.archiveFiles false files w2).2
  ∧ quieter (Debug.archiveFiles verbose files w1).1
      (Debug.archiveFiles false files w2).1.
Proof.
  revert w1 w2. induction files as [|f files IH]; intros w1 w2 Hq; simpl.
  { done. }
  destruct (Debug.archiveFile.err f) as [e|]; [done|].
  pose proof (quieter_print verbose
                (Debug.log_Printf "archiving file %q with %d bytes"
                   [Debug.op_string (Debug.archiveFile.name f);
                    Debug.op_int (String.length (Debug.archiveFile.data f))])
                w1 w2 Hq) as Hq'.
  set (w1' := if verbose then _ else w1) in *.
  destruct Hq' as (Hfiles & Hrlimit & Hzip & Hprinted).
  rewrite Hzip.
  destruct (Debug.zipCreate _ _) as [e|]; [by repeat split|].
  destruct (Debug.zipWrite _ _) as [e|]; [by repeat split|].
  apply IH. repeat split; simpl; done.
Qed.

(** X19: the [-v] flag only adds log lines.  A run of the handler returns
    the same error or success, creates the same files, sets the same
    limit and writes the same entries to the archive with and without it,
    and prints with it every line it prints without it, in the same
    order. *)
Theorem verbose_only_adds_log_lines (verbose : bool) (args : list string)
    (w : Debug.world.t) :
  (Debug.handler verbose args w).2 = (Debug.handler false args w).2
  ∧ Debug.world.files (Debug.handler verbose args w).1
    = Debug.world.files (Debug.handler false args w).1
  ∧ Debug.world.rlimit (Debug.handler verbose args w).1
    = Debug.world.rlimit (Debug.handler false args w).1
  ∧ Debug.world.zip (Debug.handler verbose args w).1
    = Debug.world.zip (Debug.handler false args w).1
  ∧ Debug.world.printed (Debug.handler false args w).1
    `sublist_of` Debug.world.printed (Debug.handler verbose args w).1.
Proof.
  cut ((Debug.handler verbose args w).2 = (Debug.handler false args w).2
       ∧ quieter (Debug.handler verbose args w).1
           (Debug.handler false args w).1).
  { intros (? & ? & ? & ? & ?). by repeat split. }
  assert (∀ baseDir w',
            (Debug.archiveDocker verbose baseDir w').2
            = (Debug.archiveDocker false baseDir w').2
            ∧ quieter (Debug.archiveDocker verbose baseDir w').1
                (Debug.archiveDocker false baseDir w').1) as Hdocker.
  { intros baseDir w'. unfold Debug.archiveDocker, Debug.getContainers.
    destruct (Debug.Output _) as [out [e|]]; simpl.
    { split; [done | apply quieter_refl]. }
    apply archiveFiles_quieter, quieter_print, quieter_refl. }
  assert (∀ baseDir w',
            (Debug.archiveKube verbose baseDir w').2
            = (Debug.archiveKube false baseDir w').2
            ∧ quieter (Debug.archiveKube verbose baseDir w').1
                (Debug.archiveKube false baseDir w').1) as Hkube.
  { intros baseDir w'. unfold Debug.archiveKube.
    destruct Debug.getPods as [pods [e|]]; simpl.
    { split; [done | apply quieter_refl]. }
    apply archiveFiles_quieter, quieter_print, quieter_refl. }
  unfold Debug.handler.
  destruct (Debug.flagSet_Parse args) as [e|[deployment base]];
    [split; [done | apply quieter_refl]|].
  destruct (String.eqb base ""); [split; [done | apply quieter_refl]|].
  destruct (Debug.outPaths base) as [baseDir file].
  destruct (Debug.OpenFile file) as [e|]; [split; [done | apply quieter_refl]|].
  destruct (Debug.setOpenFileLimits _ _) as [w' [e|]];
    [split; [done | apply quieter_refl]|].
  destruct (String.eqb deployment "serv").
  { destruct (Hdocker baseDir w') as [Herr Hq].
    destruct (Debug.archiveDocker verbose baseDir w') as [w1 e1],
      (Debug.archiveDocker false baseDir w') as [w2 e2].
    simpl in *. subst e2. by destruct e1. }
  destruct (String.eqb deployment "comp").
  { destruct (Hdocker baseDir w') as [Herr Hq].
    destruct (Debug.archiveDocker verbose baseDir w') as [w1 e1],
      (Debug.archiveDocker false baseDir w') as [w2 e2].
    simpl in *. subst e2. by destruct e1. }
  destruct (String.eqb deployment "kube").
  { destruct (Hkube baseDir w') as [Herr Hq].
    destruct (Debug.archiveKube verbose baseDir w') as [w1 e1],
      (Debug.archiveKube false baseDir w') as [w2 e2].
    simpl in *. subst e2. by destruct e1. }
  split; [done | apply quieter_refl].
Qed.

End Verbosity.

(** * The additional theorems applied to concrete inputs *)

(** X1 on two groups, swapped and under another repository name. *)
Lemma validateGroups_accepts_sub_multisets_witness :
  validateGroups "other/repo" "main"
    [Sample.group "b/" "y"; Sample.group "a/" "x"] = None.
Proof.
  apply (validateGroups_accepts_sub_multisets "repo" "other/repo" "main"
           [Sample.group "a/" "x"; Sample.group "b/" "y"]
           [Sample.group "b/" "y"; Sample.group "a/" "x"]).
  - apply submseteq_swap.
  - reflexivity.
Defined.

(** X3 on the file diff under [backend/] of the two-file example. *)
Lemma group_branch_holds_only_matching_files_witness :
  ∃ pre g post,
    [Sample.group "backend/" "grouped-backend"] = pre ++ g :: post
    ∧ Group.Branch g = "grouped-backend"
    ∧ Contains (effectiveName Sample.backend_a) (Group.Directory g) = true.
Proof.
  destruct (group_branch_holds_only_matching_files
              [Sample.backend_a; Sample.frontend_b] "main"
              [Sample.group "backend/" "grouped-backend"]
              (<["grouped-backend" := [Sample.backend_a]]>
                 {[ "main" := [Sample.frontend_b] ]})
              "grouped-backend" [Sample.backend_a] Sample.backend_a)
    as (pre & g & post & Hgroups & Hbranch & _ & Hcontains & _).
  - exact groupFileDiffs_backend_frontend.
  - vm_compute. reflexivity.
  - discriminate.
  - left.
  - exists pre, g, post.
    split; [exact Hgroups|]. split; [exact Hbranch | exact Hcontains].
Defined.

Lemma sample_repeated_directory :
  fileDiffsByBranch [Sample.backend_a; Sample.frontend_b] "main"
    [Sample.group "backend/" "first"; Sample.group "backend/" "second"]
  = Ok (<["second" := [Sample.backend_a]]>
          {[ "main" := [Sample.frontend_b] ]}).
Proof. vm_compute. reflexivity. Qed.

(** X4 on two groups that declare [backend/]. *)
Lemma repeated_directory_shadows_earlier_group_witness :
  ∃ byBranch,
    fileDiffsByBranch [Sample.backend_a; Sample.frontend_b] "main"
      [Sample.group "backend/" "first"; Sample.group "backend/" "second"]
    = Ok byBranch
    ∧ byBranch !! "first" = None.
Proof.
  eexists. split; [exact sample_repeated_directory|].
  apply (repeated_directory_shadows_earlier_group "repo"
           [Sample.backend_a; Sample.frontend_b] "main"
           [Sample.group "backend/" "first"; Sample.group "backend/" "second"]
           _ 0 1 (Sample.group "backend/" "first")
           (Sample.group "backend/" "second")).
  - reflexivity.
  - reflexivity.
  - reflexivity.
  - lia.
  - reflexivity.
  - exact sample_repeated_directory.
Defined.

(** X5 on a group on [backend/] followed by one on the empty directory. *)
Lemma groups_before_empty_directory_are_ignored_witness :
  @groupFileDiffs _ Sample.collaborators "two files" "main"
    [Sample.group "backend/" "grouped-backend"; Sample.group "" "everything"]
  = @groupFileDiffs _ Sample.collaborators "two files" "main" [].
Proof.
  destruct (@groups_before_empty_directory_are_ignored _ Sample.collaborators
              [Sample.group "backend/" "grouped-backend"] []
              (Sample.group "" "everything") "two files" "main" eq_refl)
    as (_ & _ & Hsame).
  exact Hsame.
Defined.

(** X6 on the two-file diff and a group on [docs/]. *)
Lemma unmatched_diff_is_left_whole_witness :
  fileDiffsByBranch [Sample.backend_a; Sample.frontend_b] "main"
    [Sample.group "docs/" "docs"]
  = Ok {[ "main" := [Sample.backend_a; Sample.frontend_b] ]}.
Proof.
  destruct (@unmatched_diff_is_left_whole _ Sample.collaborators
              "two files" "main" [Sample.group "docs/" "docs"]
              [Sample.backend_a; Sample.frontend_b]) as [Hwhole _].
  - reflexivity.
  - intros f g Hf Hg. apply list_elem_of_singleton in Hg. subst g.
    repeat (apply elem_of_cons in Hf as [-> | Hf]; [reflexivity|]).
    by apply elem_of_nil in Hf.
  - exact Hwhole.
Defined.

Lemma sample_grouped_specs :
  ∃ specs,
    @createChangesetSpecs _ Sample.collaborators GroupedSample.task
      (Sample.result "two files") (Sample.flags true true) = Ok specs.
Proof. vm_compute. eexists. reflexivity. Qed.

(** X7 on the grouped task: the spec of the default branch carries the
    print of the file diff outside [backend/]. *)
Lemma default_branch_spec_is_always_produced_witness :
  ∃ specs r diff,
    @createChangesetSpecs _ Sample.collaborators GroupedSample.task
      (Sample.result "two files") (Sample.flags true true) = Ok specs
    ∧ @specFor _ Sample.collaborators GroupedSample.task
        (Sample.flags true true) r (Rendered.defaultBranch r) diff ∈ specs
    ∧ ∃ fileDiffs,
        Sample.parse "two files" = inr fileDiffs
        ∧ Sample.print
            (assigned [Sample.group "backend/" "grouped-backend"]
               (Rendered.defaultBranch r) (Rendered.defaultBranch r)
               fileDiffs) = inr diff.
Proof.
  destruct sample_grouped_specs as [specs Hspecs].
  destruct (@default_branch_spec_is_always_produced _ Sample.collaborators
              GroupedSample.task (Sample.result "two files")
              (Sample.flags true true) specs Hspecs)
    as (r & diff & _ & Hin & fileDiffs & Hparse & Hprint & _).
  exists specs, r, diff. split; [exact Hspecs|]. split; [exact Hin|].
  exists fileDiffs. split; [exact Hparse | exact Hprint].
Defined.

(** X8 on the grouped task. *)
Lemma specs_share_rendered_metadata_witness :
  ∃ specs r,
    @createChangesetSpecs _ Sample.collaborators GroupedSample.task
      (Sample.result "two files") (Sample.flags true true) = Ok specs
    ∧ Forall
        (λ spec,
           ChangesetSpec.Title spec = Rendered.title r
           ∧ ChangesetSpec.HeadRepository spec
             = ChangesetSpec.BaseRepository spec
           ∧ List.length (ChangesetSpec.Commits spec) = 1)
        specs.
Proof.
  destruct sample_grouped_specs as [specs Hspecs].
  destruct (@specs_share_rendered_metadata _ Sample.collaborators
              GroupedSample.task (Sample.result "two files")
              (Sample.flags true true) specs Hspecs) as (r & _ & Hall).
  exists specs, r. split; [exact Hspecs|].
  apply Forall_forall. intros spec Hspec.
  destruct (Hall spec Hspec) as (branch & diff & ->).
  repeat split.
Defined.

(** X10 on the grouped task: one or two specs. *)
Lemma specs_are_one_per_distinct_branch_witness :
  ∃ specs,
    @createChangesetSpecs _ Sample.collaborators GroupedSample.task
      (Sample.result "two files") (Sample.flags true true) = Ok specs
    ∧ (1 ≤ List.length specs)%nat
    ∧ (List.length specs ≤ 2)%nat.
Proof.
  destruct sample_grouped_specs as [specs Hspecs].
  destruct (@specs_are_one_per_distinct_branch _ Sample.collaborators
              GroupedSample.task (Sample.result "two files")
              (Sample.flags true true) specs Hspecs)
    as (_ & Hlower & Hupper).
  exists specs. split; [exact Hspecs|]. split; [exact Hlower | exact Hupper].
Defined.

(** X11 on three groups, the third on the branch of the first, and a diff
    that does not parse. *)
Lemma validation_failure_precedes_grouping_witness :
  @createChangesetSpecs _ Sample.collaborators GroupedSample.clashing
    (Sample.result Sample.malformed) (Sample.flags true true)
  = Err (errDuplicateBranch "github.com/sourcegraph/src-cli" "x").
Proof.
  destruct (@validation_failure_precedes_grouping _ Sample.collaborators
              GroupedSample.clashing (Sample.result Sample.malformed)
              (Sample.flags true true) GroupedSample.rendered
              [Sample.group "a/" "x"; Sample.group "b/" "y"] []
              (Sample.group "c/" "x")) as [Hduplicate _].
  - reflexivity.
  - reflexivity.
  - reflexivity.
  - apply Hduplicate. left.
Defined.

(** X12 on a template with an author and a policy, under opposite
    flags. *)
Lemma flags_are_irrelevant_for_complete_templates_witness :
  @createChangesetSpecs _ Sample.collaborators GroupedSample.complete
    (Sample.result "two files") (Sample.flags false false)
  = @createChangesetSpecs _ Sample.collaborators GroupedSample.complete
      (Sample.result "two files") (Sample.flags true true).
Proof.
  apply (@flags_are_irrelevant_for_complete_templates _ Sample.collaborators
           GroupedSample.complete (Sample.result "two files")
           (Sample.flags false false) (Sample.flags true true)
           {| GitCommitAuthor.Name := "Ada";
              GitCommitAuthor.Email := "ada@example.com" |}
           (Some (any_bool true))).
  - reflexivity.
  - reflexivity.
  - intros branch. exists (any_bool true). reflexivity.
Defined.

(** X14 on the sample host: the previous logs fail, the run succeeds. *)
Lemma archiveKube_succeeds_iff_required_commands_do_witness :
  (@Debug.archiveKube DebugSample.host true "debug" Debug.initial).2 = None
  ∧ Forall (λ f, is_Some (Debug.archiveFile.err f))
      ((λ pc, @Debug.getPastContainerLog DebugSample.host pc.1 pc.2 "debug")
         <$> Debug.podContainers (@Debug.getPods DebugSample.host).1).
Proof.
  destruct (@archiveKube_succeeds_iff_required_commands_do DebugSample.host
              true "debug" Debug.initial (λ _ _, eq_refl) (λ _ _, eq_refl))
    as [[_ Hsucceeds] _].
  split.
  - apply Hsucceeds. split; [reflexivity|]. vm_compute. repeat constructor.
  - vm_compute. repeat constructor; eexists; reflexivity.
Defined.

(** X15 on [-d=kube -out=dump]. *)
Lemma handler_archives_under_the_base_directory_witness :
  ∃ new,
    Debug.world.zip
      (@Debug.handler DebugSample.host true ["-d=kube"; "-out=dump"]
         Debug.initial).1 = new
    ∧ Forall (λ entry, ∃ rest, entry.1 = "dump/kubectl/" +:+ rest) new.
Proof.
  destruct (@handler_archives_under_the_base_directory DebugSample.host true
              ["-d=kube"; "-out=dump"] Debug.initial "kube" "dump" eq_refl)
    as (new & Hzip & Hnames).
  exists new. split; [exact Hzip | exact Hnames].
Defined.

(** X16 on a deployment type that is not known: [debug.zip] is created
    and nothing is archived. *)
Lemma handler_creates_the_archive_before_checking_the_deployment_witness :
  Debug.world.files
    (@Debug.handler DebugSample.host false ["-d=k8s"] Debug.initial).1
  = ["debug.zip"]
  ∧ (@Debug.handler DebugSample.host false ["-d=k8s"] Debug.initial).2
    = Some (Debug.fmt_Errorf
              "must declare -d=<deployment type>, as serv, comp, or kube" [])
  ∧ Debug.world.zip
      (@Debug.handler DebugSample.host false ["-d=k8s"] Debug.initial).1
    = [].
Proof.
  destruct (@handler_creates_the_archive_before_checking_the_deployment
              DebugSample.host false ["-d=k8s"] Debug.initial "k8s"
              "debug.zip" eq_refl) as [Hfiles Hrefused].
  split; [exact Hfiles|].
  apply Hrefused; try discriminate; reflexivity.
Defined.

(** X18 on the sample host, with its two containers. *)
Lemma archiveDocker_succeeds_iff_every_command_does_witness :
  (@Debug.archiveDocker DebugSample.host true "debug" Debug.initial).2 = None.
Proof.
  destruct (@archiveDocker_succeeds_iff_every_command_does DebugSample.host
              true "debug" Debug.initial (λ _ _, eq_refl) (λ _ _, eq_refl))
    as [[_ Hsucceeds] _].
  apply Hsucceeds. split; [reflexivity|]. vm_compute. repeat constructor.
Defined.
